(** * not-h-m-m: the outline editor's tree model, importer and exporter

    A shallow embedding of [not-h-m-m.py]: the [Node] tree, the visible-node
    flattener, selection clamping, the Markdown importer and exporter, and
    the key-binding handlers that edit the tree, the tree that is painted
    and the start-up.

    ** How Python objects are represented

    A Python [Node] is a mutable object that owns the list of its children
    and carries a back-pointer [parent].  Every tree the program builds
    ([parse_md], the [tab] and [enter] handlers) hangs each fresh node under
    exactly one parent, so an object is determined by its position in the
    tree.  The embedding therefore keeps the tree as a value ([Node]) and
    uses the position of a node, the list of child indices leading to it
    from the root ([NodeRef]), as the object's identity:
      - [node.parent]                 is the position without its last index
                                      ([parent]); the root has none;
      - [node.parent.children.index(node)] is that last index;
      - a mutation [node.f = v]       is [update_at] at the node's position;
      - [a == b] on nodes (identity)  is equality of positions.
    A reference the program keeps across a mutation stays a valid position:
    the stack of [parse_md] holds nodes whose child lists only grow at the
    end, and the handlers look up [new_node] after they have inserted it. *)

From Stdlib Require Import ZArith Lia String Ascii.
From stdpp Require Import base tactics option list sorting strings.

#[local] Set Warnings "-register-all".
Local Open Scope string_scope.
Local Open Scope Z_scope.
Local Open Scope nat_scope.
Local Open Scope list_scope.

(** ** Exceptions and results *)

Inductive Exception := IndexError | ValueError.

Inductive Result (A : Type) :=
| Ok (a : A)
| Raise (e : Exception).
Arguments Ok {A} a.
Arguments Raise {A} e.

#[global] Instance Result_ret : MRet Result := λ A, Ok.
#[global] Instance Result_bind : MBind Result := λ A B k r,
  match r with
  | Ok a => k a
  | Raise e => Raise e
  end.

(** ** class Node *)

Inductive Node := mkNode {
  text : string;
  children : list Node;
  collapsed : bool
}.

(** [Node(text)]: no children, not collapsed.  The [parent] argument of the
    constructor is the position the node is stored at. *)
Definition Node_init (t : string) : Node := mkNode t [] false.

Abbreviation NodeRef := (list nat) (only parsing).

(** [node.parent]: [None] for the root. *)
Definition parent (r : NodeRef) : option NodeRef :=
  match r with
  | [] => None
  | _ => Some (removelast r)
  end.

(** Dereference a position. *)
Fixpoint node_at (n : Node) (r : NodeRef) : option Node :=
  match r with
  | [] => Some n
  | i :: r' =>
      match children n !! i with
      | Some c => node_at c r'
      | None => None
      end
  end.

(** Mutate the object at a position. *)
Fixpoint update_at (f : Node → Node) (r : NodeRef) (n : Node) : Node :=
  match r with
  | [] => f n
  | i :: r' =>
      mkNode (text n) (alter (update_at f r') i (children n)) (collapsed n)
  end.

Definition set_text (t : string) (n : Node) : Node :=
  mkNode t (children n) (collapsed n).
Definition set_children (cs : list Node) (n : Node) : Node :=
  mkNode (text n) cs (collapsed n).
Definition set_collapsed (b : bool) (n : Node) : Node :=
  mkNode (text n) (children n) b.

(** Python list operations. *)

(** [l[i]] for a Python integer [i]: negative indices count from the end. *)
Definition getitem {A} (l : list A) (i : Z) : Result A :=
  let j := if (i <? 0)%Z then (Z.of_nat (length l) + i)%Z else i in
  if (j <? 0)%Z then Raise IndexError
  else match l !! Z.to_nat j with
       | Some x => Ok x
       | None => Raise IndexError
       end.

(** [l.index(x)]: the first position holding [x]. *)
Fixpoint list_index `{EqDecision A} (x : A) (l : list A) : Result nat :=
  match l with
  | [] => Raise ValueError
  | y :: l' => if decide (y = x) then Ok 0
               else i ← list_index x l'; Ok (S i)
  end.

(** [l.insert(i, x)] for [0 <= i]: past the end it appends. *)
Definition list_insert_at {A} (i : nat) (x : A) (l : list A) : list A :=
  take i l ++ x :: drop i l.

(** ** AppState.get_visible_nodes *)

(** [walk(node)] with the list [visible] it appends to threaded through. *)
Fixpoint walk (node : Node) (ref : NodeRef) (visible : list NodeRef)
  {struct node} : list NodeRef :=
  let visible := visible ++ [ref] in
  if collapsed node then visible
  else (fix for_child (cs : list Node) (i : nat) (visible : list NodeRef)
          {struct cs} : list NodeRef :=
          match cs with
          | [] => visible
          | child :: cs' => for_child cs' (S i) (walk child (ref ++ [i]) visible)
          end) (children node) 0 visible.

Definition get_visible_nodes (root : Node) : list NodeRef :=
  walk root [] [].

(** ** class AppState *)

Record AppState := mkAppState {
  filename : string;
  root : Node;
  selected_index : Z;
  is_editing : bool;
  status_msg : string
}.

Definition set_root (r : Node) (st : AppState) : AppState :=
  mkAppState (filename st) r (selected_index st) (is_editing st) (status_msg st).
Definition set_selected_index (i : Z) (st : AppState) : AppState :=
  mkAppState (filename st) (root st) i (is_editing st) (status_msg st).
Definition set_is_editing (b : bool) (st : AppState) : AppState :=
  mkAppState (filename st) (root st) (selected_index st) b (status_msg st).
Definition set_status_msg (m : string) (st : AppState) : AppState :=
  mkAppState (filename st) (root st) (selected_index st) (is_editing st) m.

(** [AppState.get_selected_node]: the clamped index is stored before the
    list is indexed. *)
Definition get_selected_node (st : AppState) : Result (AppState * NodeRef) :=
  let nodes := get_visible_nodes (root st) in
  let st :=
    set_selected_index
      (Z.max 0 (Z.min (selected_index st) (Z.of_nat (length nodes) - 1))) st in
  n ← getitem nodes (selected_index st);
  Ok (st, n).

(** The attributes of the object at a position.  Positions handed out by
    [get_visible_nodes] are positions of the tree ([visible_valid] below),
    so the default is never reached from the handlers. *)
Definition deref (root : Node) (r : NodeRef) : Node :=
  default (Node_init "") (node_at root r).

(** ** Markdown logic *)

(** The string ["\n"]. *)
Definition newline : string := String (ascii_of_nat 10) "".

(** [s * n] on strings. *)
Fixpoint str_mul (s : string) (n : nat) : string :=
  match n with
  | 0 => ""
  | S n' => s +:+ str_mul s n'
  end.

(** [to_markdown(node, level)]; [level] only ever counts up from its
    default 0. *)
Fixpoint to_markdown (node : Node) (level : nat) {struct node} : list string :=
  let lines := [] in
  let lines :=
    if decide (0 < level)
    then lines ++ [str_mul "#" level +:+ " " +:+ text node]
    else lines in
  (fix for_child (cs : list Node) (lines : list string) {struct cs}
     : list string :=
     match cs with
     | [] => lines
     | child :: cs' => for_child cs' (lines ++ to_markdown child (level + 1))
     end) (children node) lines.

(** [os.path.basename] (POSIX): what follows the last slash. *)
Fixpoint basename_from (p acc : string) : string :=
  match p with
  | EmptyString => acc
  | String c p' =>
      if decide (c = "/"%char) then basename_from p' ""
      else basename_from p' (acc +:+ String c "")
  end.

Definition basename (p : string) : string := basename_from p "".

(** The fields of a markdown-it token that [parse_md] reads. *)
Record Token := mkToken {
  type : string;
  tag : string;
  content : string
}.

(** The tokenizer [MarkdownIt().parse] is a library outside the program;
    the importer is parametrised by it. *)
Class MarkdownIt := md_parse : string → list Token.

(** [int(c)] for a one-character string. *)
Definition int_of_char (c : ascii) : Result nat :=
  let n := nat_of_ascii c in
  if decide (48 ≤ n ∧ n ≤ 57) then Ok (n - 48) else Raise ValueError.

(** [s[i]] for [0 <= i]. *)
Definition str_getitem (s : string) (i : nat) : Result ascii :=
  match String.get i s with
  | Some c => Ok c
  | None => Raise IndexError
  end.

(** [while stack and stack[-1][0] >= level: stack.pop()].  The Python list
    [stack] grows at its end; here its end is the head of the list. *)
Fixpoint pop_while (level : nat) (stack : list (nat * NodeRef))
  : list (nat * NodeRef) :=
  match stack with
  | [] => []
  | (l, r) :: stack' =>
      if decide (level ≤ l) then pop_while level stack' else stack
  end.

(** [stack[-1]]. *)
Definition stack_top (stack : list (nat * NodeRef)) : Result (nat * NodeRef) :=
  match stack with
  | e :: _ => Ok e
  | [] => Raise IndexError
  end.

(** [parent.children.append(node)], with the position the node lands at. *)
Definition append_child (root : Node) (parent : NodeRef) (node : Node)
  : Node * NodeRef :=
  (update_at (λ p, set_children (children p ++ [node]) p) parent root,
   parent ++ [length (children (deref root parent))]).

(** The body of the [for] loop of [parse_md] for a heading token. *)
Definition parse_heading (tokens : list Token) (i : nat) (token : Token)
  (root : Node) (stack : list (nat * NodeRef))
  : Result (Node * list (nat * NodeRef)) :=
  c ← str_getitem (tag token) 1;
  level ← int_of_char c;
  next ← getitem tokens (Z.of_nat i + 1);
  let node := Node_init (content next) in
  let stack := pop_while level stack in
  '(_, parent) ← stack_top stack;
  let '(tree, node_ref) := append_child root parent node in
  Ok (tree, (level, node_ref) :: stack).

(** [for i, token in enumerate(tokens)], started at index [i] with [todo]
    the tokens still to come. *)
Fixpoint parse_loop (tokens : list Token) (i : nat) (todo : list Token)
  (root : Node) (stack : list (nat * NodeRef)) : Result Node :=
  match todo with
  | [] => Ok root
  | token :: todo' =>
      if decide (type token = "heading_open") then
        '(root, stack) ← parse_heading tokens i token root stack;
        parse_loop tokens (S i) todo' root stack
      else parse_loop tokens (S i) todo' root stack
  end.

Definition parse_md `{MarkdownIt} (md_text filename : string) : Result Node :=
  let tokens := md_parse md_text in
  let root := Node_init (basename filename) in
  let stack := [(0, [] : NodeRef)] in
  parse_loop tokens 0 tokens root stack.

(** ** State init and UI elements *)

Definition AppState_init (filename : string) : AppState :=
  mkAppState filename (Node_init (basename filename)) 0 false
    " Arrows: Nav | e: Edit | Tab: Add Child | Enter: Add Sibling | s: Save ".

Inductive Widget := root_window | edit_input.

(** The module's globals that the handlers touch: [state], the text of the
    [edit_input] widget, the widget holding the focus, whether
    [event.app.exit()] was called, and the content of the file named
    [state.filename] ([None] while it does not exist). *)
Record Session := mkSession {
  state : AppState;
  edit_input_text : string;
  focus : Widget;
  exited : bool;
  file : option string
}.

Definition set_state (st : AppState) (s : Session) : Session :=
  mkSession st (edit_input_text s) (focus s) (exited s) (file s).

(** ** Helpers *)

Definition trigger_edit (default_text : string) (s : Session) : Session :=
  mkSession (set_is_editing true (state s)) default_text edit_input
    (exited s) (file s).

(** ** Key bindings *)

(** [q] *)
Definition quit (s : Session) : Result Session :=
  Ok (mkSession (state s) (edit_input_text s) (focus s) true (file s)).

(** [up] *)
Definition move_up (s : Session) : Result Session :=
  let st := state s in
  Ok (set_state (set_selected_index (selected_index st - 1)%Z st) s).

(** [down] *)
Definition move_down (s : Session) : Result Session :=
  let st := state s in
  Ok (set_state (set_selected_index (selected_index st + 1)%Z st) s).

(** [e] *)
Definition rename (s : Session) : Result Session :=
  '(st, node) ← get_selected_node (state s);
  Ok (trigger_edit (text (deref (root st) node)) (set_state st s)).

(** [tab] *)
Definition add_child_and_edit (s : Session) : Result Session :=
  '(st, parent) ← get_selected_node (state s);
  let new_node := Node_init "New Node" in
  let '(tree, new_ref) := append_child (root st) parent new_node in
  let tree := update_at (set_collapsed false) parent tree in
  let st := set_root tree st in
  (* Move selection to the new node *)
  idx ← list_index new_ref (get_visible_nodes (root st));
  let st := set_selected_index (Z.of_nat idx) st in
  Ok (trigger_edit "" (set_state st s)).

(** [enter], not editing *)
Definition add_sibling_and_edit (s : Session) : Result Session :=
  '(st, current) ← get_selected_node (state s);
  match parent current with
  | Some current_parent =>
      let new_node := Node_init "New Sibling" in
      let idx := List.last current 0 in
      let tree :=
        update_at
          (λ p, set_children (list_insert_at (idx + 1) new_node (children p)) p)
          current_parent (root st) in
      let new_ref := current_parent ++ [idx + 1] in
      let st := set_root tree st in
      (* Move selection to the new node *)
      idx ← list_index new_ref (get_visible_nodes (root st));
      let st := set_selected_index (Z.of_nat idx) st in
      Ok (trigger_edit "" (set_state st s))
  | None => Ok (set_state st s)
  end.

(** [enter], editing *)
Definition finish_edit (s : Session) : Result Session :=
  '(st, node) ← get_selected_node (state s);
  let new_text :=
    if decide (edit_input_text s = "") then "Untitled" else edit_input_text s in
  let st := set_root (update_at (set_text new_text) node (root st)) st in
  let st := set_is_editing false st in
  Ok (mkSession st (edit_input_text s) root_window (exited s) (file s)).

(** [escape], editing *)
Definition cancel_edit (s : Session) : Result Session :=
  let st := set_is_editing false (state s) in
  Ok (mkSession st (edit_input_text s) root_window (exited s) (file s)).

(** [d d] *)
Definition delete_node (s : Session) : Result Session :=
  '(st, node) ← get_selected_node (state s);
  match parent node with
  | Some node_parent =>
      let idx := List.last node 0 in
      let tree :=
        update_at (λ p, set_children (delete idx (children p)) p)
          node_parent (root st) in
      Ok (set_state (set_root tree st) s)
  | None => Ok (set_state st s)
  end.

(** [s] *)
Definition save (s : Session) : Result Session :=
  let st := state s in
  let written := String.concat newline (to_markdown (root st) 0) in
  let st := set_status_msg (" Saved: " +:+ filename st +:+ " ") st in
  Ok (mkSession st (edit_input_text s) (focus s) (exited s) (Some written)).

(** [space] *)
Definition toggle_collapse (s : Session) : Result Session :=
  '(st, node) ← get_selected_node (state s);
  if decide (children (deref (root st) node) ≠ []) then
    Ok (set_state
          (set_root (update_at (λ n, set_collapsed (negb (collapsed n)) n)
                       node (root st)) st) s)
  else Ok (set_state st s).

(** ** Rendering: [get_ui_content] reads the selected node, which clamps
    the index; its only other effect is the painted text. *)
Definition get_ui_content (s : Session) : Result Session :=
  '(st, _) ← get_selected_node (state s);
  Ok (set_state st s).

(** ** Dispatch *)

(** The key sequences bound in the [KeyBindings] object, and [typed t]:
    keystrokes that reach the focused [edit_input] widget and leave it
    holding the text [t]. *)
Inductive Key :=
| key_q | key_up | key_down | key_e | key_tab | key_enter | key_escape
| key_d_d | key_s | key_space
| typed (t : string).

(** Each binding with its filter, [is_not_editing] or [is_editing]; a key
    sequence whose binding is filtered out fires no handler. *)
Definition press (k : Key) (s : Session) : Result Session :=
  if is_editing (state s) then
    match k with
    | key_enter => finish_edit s
    | key_escape => cancel_edit s
    | typed t =>
        Ok (mkSession (state s) t (focus s) (exited s) (file s))
    | _ => Ok s
    end
  else
    match k with
    | key_q => quit s
    | key_up => move_up s
    | key_down => move_down s
    | key_e => rename s
    | key_tab => add_child_and_edit s
    | key_enter => add_sibling_and_edit s
    | key_d_d => delete_node s
    | key_s => save s
    | key_space => toggle_collapse s
    | key_escape | typed _ => Ok s
    end.

(** The application loop, repainting after each key press. *)
Fixpoint run (keys : list Key) (s : Session) : Result Session :=
  match keys with
  | [] => Ok s
  | k :: keys' =>
      s ← press k s;
      s ← get_ui_content s;
      run keys' s
  end.

(** [__main__]: load the file when it exists. *)
Definition main `{MarkdownIt} (target_file : string) (on_disk : option string)
  : Result Session :=
  let st := AppState_init target_file in
  st ← match on_disk with
       | Some md_text =>
           r ← parse_md md_text (filename st);
           Ok (set_root r st)
       | None => Ok st
       end;
  Ok (mkSession st "" root_window false on_disk).

(** ** The tokenizer on exported documents

    A model of [MarkdownIt().parse] (markdown-it-py, CommonMark preset) on
    the documents [to_markdown] writes: ASCII text without carriage
    returns in which every line starts with [#].  On such a line the only
    block rules of markdown-it that can fire are [heading] and [paragraph]:
      - one to six [#] followed by a space, a tab or the end of the line
        open an ATX heading ([heading_open] with tag [h1] .. [h6], an
        [inline] token holding the content, [heading_close]); trailing
        spaces, then a closing run of [#] preceded by a space, are cut and
        the content is stripped;
      - any other line (seven or more [#], or [#] glued to text) is
        paragraph text.
    Lines that do not start with [#] are outside what this model covers;
    it treats them as paragraph text or, when blank, as separators. *)

Definition isStrSpace (c : ascii) : bool :=
  bool_decide (nat_of_ascii c = 9 ∨ nat_of_ascii c = 32).

(** ASCII characters removed by [str.strip()]. *)
Definition py_isspace (c : ascii) : bool :=
  let n := nat_of_ascii c in
  bool_decide ((9 ≤ n ∧ n ≤ 13) ∨ (28 ≤ n ∧ n ≤ 32)).

Definition is_hash (c : ascii) : bool := bool_decide (c = "#"%char).

Fixpoint lstrip (f : ascii → bool) (s : list ascii) : list ascii :=
  match s with
  | c :: s' => if f c then lstrip f s' else s
  | [] => []
  end.

Definition rstrip (f : ascii → bool) (s : list ascii) : list ascii :=
  rev (lstrip f (rev s)).

Definition py_strip (s : list ascii) : list ascii :=
  rstrip py_isspace (lstrip py_isspace s).

(** [md_text.split("\n")] *)
Fixpoint split_lines (s : list ascii) : list (list ascii) :=
  match s with
  | [] => [[]]
  | c :: s' =>
      if decide (c = ascii_of_nat 10) then [] :: split_lines s'
      else match split_lines s' with
           | l :: ls => (c :: l) :: ls
           | [] => [[c]]
           end
  end.

(** The text of a heading, given what follows the opening run of [#]. *)
Definition heading_content (rest : list ascii) : list ascii :=
  let r := rstrip isStrSpace rest in
  let r' := rstrip is_hash r in
  let r :=
    match last r' with
    | Some c => if isStrSpace c then r' else r
    | None => r
    end in
  py_strip r.

(** The [heading] block rule on one line: level and content. *)
Definition atx_heading (line : list ascii) : option (nat * list ascii) :=
  let level := length line - length (lstrip is_hash line) in
  let rest := drop level line in
  if decide (1 ≤ level ∧ level ≤ 6) then
    match rest with
    | [] => Some (level, [])
    | c :: _ => if isStrSpace c then Some (level, heading_content rest) else None
    end
  else None.

Definition heading_tag (level : nat) : string :=
  String "h" (String (ascii_of_nat (48 + level)) "").
Arguments heading_tag : simpl never.

Definition heading_tokens (level : nat) (c : string) : list Token :=
  [mkToken "heading_open" (heading_tag level) "";
   mkToken "inline" "" c;
   mkToken "heading_close" (heading_tag level) ""].

Definition paragraph_tokens (para : list (list ascii)) : list Token :=
  match para with
  | [] => []
  | _ =>
      [mkToken "paragraph_open" "p" "";
       mkToken "inline" ""
         (String.concat newline (fmap string_of_list_ascii para));
       mkToken "paragraph_close" "p" ""]
  end.

Definition is_blank (line : list ascii) : bool :=
  bool_decide (lstrip isStrSpace line = []).

(** The block loop; [para] holds the lines of the paragraph being read. *)
Fixpoint block_tokens (lines para : list (list ascii)) : list Token :=
  match lines with
  | [] => paragraph_tokens para
  | l :: ls =>
      match atx_heading l with
      | Some (level, c) =>
          paragraph_tokens para
          ++ heading_tokens level (string_of_list_ascii c)
          ++ block_tokens ls []
      | None =>
          if is_blank l then paragraph_tokens para ++ block_tokens ls []
          else block_tokens ls (para ++ [l])
      end
  end.

Definition markdown_it : MarkdownIt :=
  λ md_text, block_tokens (split_lines (list_ascii_of_string md_text)) [].

(** * Vocabulary of the statements *)

(** ** Positions and document order *)

(** [f i x] for each element [x] of a list and its index [i], counted from
    a start, concatenated. *)
Section flat_imap.
Context {A B : Type} (f : nat → A → list B).

Fixpoint flat_imap (i : nat) (l : list A) : list B :=
  match l with
  | [] => []
  | x :: l' => f i x ++ flat_imap (S i) l'
  end.

End flat_imap.

(** The positions of a node and of what lies below it, relative to the
    node, in depth-first pre-order with the children in list order.  With
    [hide] set, what lies below a collapsed node is left out. *)
Fixpoint positions (hide : bool) (n : Node) : list NodeRef :=
  [] :: if hide && collapsed n then []
        else flat_imap (λ i c, fmap (cons i) (positions hide c)) 0 (children n).

Definition visible : Node → list NodeRef := positions true.
Definition preorder : Node → list NodeRef := positions false.

(** Document order on positions: a node comes before everything below it,
    and a subtree comes before the subtrees of the later siblings. *)
Fixpoint ref_lt (p q : NodeRef) : Prop :=
  match p, q with
  | _, [] => False
  | [], _ :: _ => True
  | i :: p', j :: q' => i < j ∨ (i = j ∧ ref_lt p' q')
  end.

(** No node strictly above position [r] is collapsed. *)
Fixpoint expanded_above (n : Node) (r : NodeRef) : Prop :=
  match r with
  | [] => True
  | i :: r' =>
      collapsed n = false ∧
      match children n !! i with
      | Some c => expanded_above c r'
      | None => True
      end
  end.

#[global] Instance expanded_above_dec n r : Decision (expanded_above n r).
Proof.
  revert n. induction r as [|i r IH]; intros n; simpl; [apply _|].
  destruct (children n !! i); apply _.
Defined.

(** ** Structural equality *)

(** The tree with every collapse flag cleared. *)
Fixpoint uncollapse (n : Node) : Node :=
  mkNode (text n) (fmap uncollapse (children n)) false.

(** Same shape, same texts, same order. *)
Definition same_structure (a b : Node) : Prop := uncollapse a = uncollapse b.

(** ** Headings *)

(** A heading line: [level] markers, one space, the text. *)
Definition heading_line (level : nat) (t : string) : string :=
  str_mul "#" level +:+ " " +:+ t.

(** The headings [to_markdown] writes for a node at a level, and below:
    level and text, in document order. *)
Fixpoint outline (level : nat) (n : Node) : list (nat * string) :=
  (level, text n) :: (children n ≫= outline (S level)).

(** The headings of a token stream, in order: for each [heading_open]
    token the digit of its tag and the content of the token after it. *)
Definition token_level (token : Token) : nat :=
  match String.get 1 (tag token) with
  | Some c => nat_of_ascii c - 48
  | None => 0
  end.

Fixpoint headings (tokens : list Token) : list (nat * string) :=
  match tokens with
  | [] => []
  | token :: rest =>
      if decide (type token = "heading_open")
      then (token_level token,
            match rest with next :: _ => content next | [] => "" end)
           :: headings rest
      else headings rest
  end.

(** What the tokenizer guarantees about a [heading_open] token: its tag is
    [h] followed by a digit from 1 to 9 and it is not the last token. *)
Definition heading_wf (tokens : list Token) : Prop :=
  ∀ i token, tokens !! i = Some token → type token = "heading_open" →
    (∃ c, String.get 1 (tag token) = Some c
          ∧ 49 ≤ nat_of_ascii c ∧ nat_of_ascii c ≤ 57)
    ∧ is_Some (tokens !! S i).

(** A checker for [heading_wf]. *)
Fixpoint heading_wfb (tokens : list Token) : bool :=
  match tokens with
  | [] => true
  | token :: rest =>
      (if decide (type token = "heading_open")
       then match String.get 1 (tag token), rest with
            | Some c, _ :: _ =>
                bool_decide (49 ≤ nat_of_ascii c ∧ nat_of_ascii c ≤ 57)
            | _, _ => false
            end
       else true)
      && heading_wfb rest
  end.

(** The loop body of [parse_md] on a heading given as level and content:
    pop while the level on top is at least the heading's, append the new
    node to the children of the node then on top, push the new node with
    its level.  And the loop over a list of headings. *)
Definition attach (h : nat * string) (st : Node * list (nat * NodeRef))
  : Result (Node * list (nat * NodeRef)) :=
  let stack := pop_while h.1 st.2 in
  '(_, parent) ← stack_top stack;
  let '(tree, node_ref) := append_child st.1 parent (Node_init h.2) in
  Ok (tree, (h.1, node_ref) :: stack).

Fixpoint attach_all (hs : list (nat * string))
  (st : Node * list (nat * NodeRef)) : Result (Node * list (nat * NodeRef)) :=
  match hs with
  | [] => Ok st
  | h :: hs' => st' ← attach h st; attach_all hs' st'
  end.

(** ** What can be written and read back *)

(** Texts a heading line gives back unchanged: not empty, first and last
    character printable ASCII other than the space, the last one not [#],
    and no line feed, carriage return or NUL anywhere. *)
Definition printable (c : ascii) : bool :=
  bool_decide (33 ≤ nat_of_ascii c ∧ nat_of_ascii c ≤ 126).

Definition line_safe (c : ascii) : bool :=
  bool_decide (nat_of_ascii c ≠ 10 ∧ nat_of_ascii c ≠ 13 ∧ nat_of_ascii c ≠ 0).

Definition plain_text (t : string) : bool :=
  let l := list_ascii_of_string t in
  match l, last l with
  | a :: _, Some z =>
      printable a && printable z && negb (is_hash z) && forallb line_safe l
  | _, _ => false
  end.

(** A node at depth [level], and all below it, can be written as heading
    lines and read back: depth at most 6, plain text. *)
Fixpoint exportable (level : nat) (n : Node) : bool :=
  bool_decide (level ≤ 6) && plain_text (text n)
  && forallb (exportable (S level)) (children n).

(** What the round trip needs of the tokenizer: a document made of heading
    lines of levels 1 to 6 with plain texts is tokenized into exactly the
    three tokens of each heading, in order. *)
Definition tokenizes_exports (M : MarkdownIt) : Prop :=
  ∀ hs : list (nat * string),
    Forall (λ h, 1 ≤ h.1 ∧ h.1 ≤ 6 ∧ plain_text h.2 = true) hs →
    md_parse (String.concat newline ((λ h, heading_line h.1 h.2) <$> hs))
    = hs ≫= (λ h, heading_tokens h.1 h.2).

(** ** Text entry *)

(** The node a command that opens the text input is about: for rename the
    selected node; for insert-child the node it appends to the children of
    the selected node; for insert-sibling the node it places right after
    the selected node. *)
Definition entry_target (k : Key) (s : Session) : option NodeRef :=
  match get_selected_node (state s) with
  | Ok (st, sel) =>
      match k with
      | key_e => Some sel
      | key_tab => Some (sel ++ [length (children (deref (root st) sel))])
      | key_enter => par ← parent sel; Some (par ++ [List.last sel 0 + 1])
      | _ => None
      end
  | Raise _ => None
  end.

(** * Definitions used in the proofs *)

(** The loops over [node.children] inside [walk] and [to_markdown], as
    functions of their own. *)
Fixpoint walk_children (cs : list Node) (ref : NodeRef) (i : nat)
  (acc : list NodeRef) : list NodeRef :=
  match cs with
  | [] => acc
  | child :: cs' => walk_children cs' ref (S i) (walk child (ref ++ [i]) acc)
  end.

Fixpoint to_markdown_children (cs : list Node) (level : nat) : list string :=
  match cs with
  | [] => []
  | child :: cs' => to_markdown child level ++ to_markdown_children cs' level
  end.

(** [node.children] extended by the nodes [cs]. *)
Definition add_children (cs : list Node) (x : Node) : Node :=
  set_children (children x ++ cs) x.

(** ["\n".join(lines)] on lists of characters. *)
Fixpoint join_lines (ls : list (list ascii)) : list ascii :=
  match ls with
  | [] => []
  | [l] => l
  | l :: ls' => l ++ ascii_of_nat 10 :: join_lines ls'
  end.

(** [r] lies on the rightmost branch: every index on the way is that of a
    last child. *)
Fixpoint on_spine (n : Node) (r : NodeRef) : Prop :=
  match r with
  | [] => True
  | i :: r' =>
      S i = length (children n) ∧
      match children n !! i with
      | Some c => on_spine c r'
      | None => False
      end
  end.

(** The stack of [parse_md] against the levels and positions of the nodes
    built so far, both listed in heading order with the root, of level 0,
    at index 0.  The top entry is the node of index [j]; each entry is a
    child of the one below, has a strictly larger level, and the nodes
    between the two have levels at least that of the upper one. *)
Inductive stack_ok (lvs : list nat) (refs : list NodeRef)
  : nat → list (nat * NodeRef) → Prop :=
| stack_ok_root :
    lvs !! 0 = Some 0 → refs !! 0 = Some [] →
    stack_ok lvs refs 0 [(0, [])]
| stack_ok_push i j L Lp rp k st :
    stack_ok lvs refs i ((Lp, rp) :: st) →
    i < j → lvs !! j = Some L → refs !! j = Some (rp ++ [k]) → Lp < L →
    (∀ i', i < i' → i' < j → ∃ L', lvs !! i' = Some L' ∧ L ≤ L') →
    stack_ok lvs refs j ((L, rp ++ [k]) :: (Lp, rp) :: st).

(** Node [j] hangs under the nearest earlier node of strictly smaller
    level. *)
Definition nearest_smaller (lvs : list nat) (refs : list NodeRef) (j : nat)
  : Prop :=
  ∃ i L Li r par,
    i < j ∧ lvs !! j = Some L ∧ lvs !! i = Some Li ∧ Li < L ∧
    refs !! j = Some r ∧ parent r = Some par ∧ refs !! i = Some par ∧
    ∀ i', i < i' → i' < j → ∃ L', lvs !! i' = Some L' ∧ L ≤ L'.

(** What holds of the tree and the stack of [parse_md] once the headings
    [hs] have been attached. *)
Definition import_inv (hs : list (nat * string))
  (st : Node * list (nat * NodeRef)) : Prop :=
  let lvs := 0 :: hs.*1 in
  let refs := preorder st.1 in
  length refs = length lvs ∧
  stack_ok lvs refs (length hs) st.2 ∧
  (∀ L r st', st.2 = (L, r) :: st' → on_spine st.1 r) ∧
  (λ r, text (deref st.1 r)) <$> tail refs = hs.*2 ∧
  (∀ j, 1 ≤ j → j ≤ length hs → nearest_smaller lvs refs j).

(** * Sample inputs *)

(** The session [main] starts with when the file does not exist. *)
Definition fresh_session : Session :=
  mkSession (AppState_init "mindmap.md") "" root_window false None.

(** The fresh session after [tab]. *)
Definition after_tab : Session :=
  match press key_tab fresh_session with
  | Ok s => s
  | Raise _ => fresh_session
  end.



(** The outline [# A / ## B / ## C / ### D / # E], with [C] collapsed. *)
Definition sample_tree : Node :=
  mkNode "mindmap.md"
    [mkNode "A" [Node_init "B"; mkNode "C" [Node_init "D"] true] false;
     Node_init "E"]
    false.

(** A session showing [sample_tree], with the index at a given value. *)
Definition sample_session (i : Z) : Session :=
  mkSession (mkAppState "mindmap.md" sample_tree i false "")
    "" root_window false None.

Definition sample_doc : string :=
  "# A" +:+ newline +:+ "## B" +:+ newline +:+ "## C" +:+ newline
  +:+ "### D" +:+ newline +:+ "# E" +:+ newline.

(** A level-1 heading followed by a level-3 heading. *)
Definition jump_doc : string := "# A" +:+ newline +:+ "### B".

(** * Vocabulary of the further properties *)

(** ** Navigation *)

(** The index after one cursor key and the repaint that follows it, in a
    visible sequence of [len] nodes. *)
Definition clamp (len : nat) (i : Z) : Z :=
  Z.max 0 (Z.min i (Z.of_nat len - 1)).

Definition step_index (len : nat) (i : Z) (k : Key) : Z :=
  clamp len (match k with
             | key_up => i - 1
             | key_down => i + 1
             | _ => i
             end)%Z.

Definition is_move (k : Key) : Prop := k = key_up ∨ k = key_down.

(** ** Levels of an outline *)

(** Headings that start at level [lo], never go above it, and never go
    down by more than one level from one heading to the next. *)
Definition stepped (lo : nat) (hs : list (nat * string)) : Prop :=
  Forall (λ h, lo ≤ h.1) hs ∧
  (∀ h, head hs = Some h → h.1 = lo) ∧
  (∀ j a b, hs !! j = Some a → hs !! S j = Some b → b.1 ≤ S a.1).

(** ** The painted tree *)

(** [rich.tree.Tree] as [get_ui_content] builds it: a label, a style and
    the branches added below ([Tree.children]). *)
Inductive Tree := mkTree {
  label : string;
  style : string;
  branches : list Tree
}.

(** [recurse(rich_n, logic_n)]: the branches it adds to [rich_n].  [ref] is
    the position of [logic_n]; [child == selected] compares objects, that
    is, positions. *)
Fixpoint recurse (selected : NodeRef) (ref : NodeRef) (logic_n : Node)
  {struct logic_n} : list Tree :=
  (fix for_child (cs : list Node) (i : nat) {struct cs} : list Tree :=
     match cs with
     | [] => []
     | child :: cs' =>
         let is_sel := bool_decide (ref ++ [i] = selected) in
         let style := if is_sel then "reverse green" else "" in
         let prefix :=
           if bool_decide (children child ≠ []) && collapsed child
           then "[+] " else "" in
         let below :=
           if collapsed child then [] else recurse selected (ref ++ [i]) child in
         mkTree (prefix +:+ text child) style below :: for_child cs' (S i)
     end) (children logic_n) 0.

(** The body of [get_ui_content] up to [console.print]: the selection is
    read, which clamps the index, and the tree is built from the root down
    without looking at the root's own [collapsed] flag. *)
Definition get_ui_tree (st : AppState) : Result (AppState * Tree) :=
  '(st, selected) ← get_selected_node st;
  let rich_tree :=
    mkTree (" " +:+ text (root st) +:+ " ")
      (if bool_decide ([] = selected) then "reverse green" else "bold magenta")
      (recurse selected [] (root st)) in
  Ok (st, rich_tree).

(** The rows of a painted tree from top to bottom: depth, label, style. *)
Fixpoint rows (depth : nat) (t : Tree) : list (nat * string * string) :=
  (depth, label t, style t) :: (branches t ≫= rows (S depth)).

(** The row of the node [n] stored at position [r]. *)
Definition row (selected : NodeRef) (r : NodeRef) (n : Node)
  : nat * string * string :=
  (length r,
   (if decide (r = []) then " " +:+ text n +:+ " "
    else (if bool_decide (children n ≠ []) && collapsed n then "[+] " else "")
         +:+ text n),
   (if decide (r = selected) then "reverse green"
    else if decide (r = []) then "bold magenta" else "")).

(** The loop over [logic_n.children] inside [recurse], as a function of its
    own. *)
Fixpoint recurse_children (selected ref : NodeRef) (cs : list Node) (i : nat)
  : list Tree :=
  match cs with
  | [] => []
  | child :: cs' =>
      mkTree ((if bool_decide (children child ≠ []) && collapsed child
               then "[+] " else "") +:+ text child)
        (if bool_decide (ref ++ [i] = selected) then "reverse green" else "")
        (if collapsed child then [] else recurse selected (ref ++ [i]) child)
      :: recurse_children selected ref cs' (S i)
  end.

(** ** Texts *)

(** Every node from [n] down has a text that is not empty. *)
Fixpoint named (n : Node) : bool :=
  bool_decide (text n ≠ "") && forallb named (children n).

(** * Properties *)

Lemma Node_ind' (P : Node → Prop) :
  (∀ t cs c, Forall P cs → P (mkNode t cs c)) → ∀ n, P n.
Proof.
  intros H. fix IH 1. intros [t cs c]. apply H.
  induction cs as [|x cs IHcs]; constructor; [apply IH | exact IHcs].
Qed.

(** ** The flattener *)

Lemma walk_unfold node ref acc :
  walk node ref acc =
  if collapsed node then acc ++ [ref]
  else walk_children (children node) ref 0 (acc ++ [ref]).
Proof.
  destruct node as [t cs c]; simpl. destruct c; [done|].
  generalize 0 (acc ++ [ref]).
  induction cs as [|x cs IH]; intros i a; simpl; [done|]. apply IH.
Qed.

Lemma flat_imap_map_prefix (ref : NodeRef) (f : nat → Node → list NodeRef) i cs :
  fmap (app ref) (flat_imap (λ i c, fmap (cons i) (f i c)) i cs)
  = flat_imap (λ i c, fmap (app (ref ++ [i])) (f i c)) i cs.
Proof.
  revert i. induction cs as [|x cs IH]; intros i; simpl; [done|].
  rewrite fmap_app, IH. f_equal.
  rewrite <- list_fmap_compose. apply list_fmap_ext. intros _ r _. simpl. by rewrite <- app_assoc.
Qed.

Lemma walk_children_positions cs :
  Forall (λ c, ∀ ref acc, walk c ref acc = acc ++ fmap (app ref) (visible c)) cs →
  ∀ ref i acc,
    walk_children cs ref i acc
    = acc ++ flat_imap (λ i c, fmap (app (ref ++ [i])) (visible c)) i cs.
Proof.
  induction 1 as [|x cs Hx _ IH]; intros ref i acc; simpl.
  - by rewrite app_nil_r.
  - rewrite Hx, IH. by rewrite <- app_assoc.
Qed.

Lemma walk_positions node : ∀ ref acc,
  walk node ref acc = acc ++ fmap (app ref) (visible node).
Proof.
  induction node as [t cs c IH] using Node_ind'. intros ref acc.
  rewrite walk_unfold. unfold visible at 1. simpl.
  rewrite app_nil_r.
  destruct c; simpl; [done|].
  rewrite flat_imap_map_prefix, walk_children_positions by done.
  by rewrite <- app_assoc.
Qed.

Lemma get_visible_nodes_visible root : get_visible_nodes root = visible root.
Proof.
  unfold get_visible_nodes. rewrite walk_positions. simpl.
  induction (visible root) as [|x l IH]; simpl; [done|]. by f_equal.
Qed.

(** ** Positions: membership and order *)

Lemma elem_of_flat_imap {A B} (f : nat → A → list B) k l x :
  x ∈ flat_imap f k l ↔ ∃ i y, l !! i = Some y ∧ x ∈ f (k + i) y.
Proof.
  revert k. induction l as [|a l IH]; intros k; simpl.
  - split; [by intros ?%elem_of_nil | by intros (i & y & ? & _)].
  - rewrite elem_of_app, IH. split.
    + intros [Hx | (i & y & Hl & Hx)].
      * exists 0, a. by rewrite Nat.add_0_r.
      * exists (S i), y. by rewrite Nat.add_succ_r.
    + intros ([|i] & y & Hl & Hx); simpl in Hl.
      * left. injection Hl as ->. by rewrite Nat.add_0_r in Hx.
      * right. exists i, y. by rewrite Nat.add_succ_r in Hx.
Qed.

Lemma flat_imap_app {A B} (f : nat → A → list B) k l1 l2 :
  flat_imap f k (l1 ++ l2)
  = flat_imap f k l1 ++ flat_imap f (k + length l1) l2.
Proof.
  revert k. induction l1 as [|a l1 IH]; intros k; simpl.
  - by rewrite Nat.add_0_r.
  - rewrite IH, <- app_assoc. by rewrite Nat.add_succ_r.
Qed.

Lemma elem_of_positions_children hide cs i r k :
  i :: r ∈ flat_imap (λ i c, fmap (cons i) (positions hide c)) k cs
  ↔ ∃ j c, i = k + j ∧ cs !! j = Some c ∧ r ∈ positions hide c.
Proof.
  rewrite elem_of_flat_imap. split.
  - intros (j & c & Hc & Hr). apply list_elem_of_fmap in Hr as (r' & Heq & Hr').
    injection Heq as -> ->. eauto.
  - intros (j & c & -> & Hc & Hr). exists j, c. split; [done|].
    apply list_elem_of_fmap. eauto.
Qed.

Lemma elem_of_positions hide n : ∀ r,
  r ∈ positions hide n
  ↔ is_Some (node_at n r) ∧ (hide = true → expanded_above n r).
Proof.
  induction n as [t cs c IH] using Node_ind'. intros [|i r]; simpl.
  - split; [by eauto | intros _; apply list_elem_of_here].
  - rewrite elem_of_cons. split.
    + intros [? | Hin]; [done|].
      destruct (hide && c) eqn:Hhc; [by apply elem_of_nil in Hin|].
      apply (elem_of_positions_children hide cs i r 0) in Hin
        as (j & x & -> & Hx & Hr). simpl. rewrite Hx.
      rewrite Forall_forall in IH.
      apply IH in Hr as [? ?]; [|by eapply list_elem_of_lookup_2].
      split; [done|]. intros ->. simpl in Hhc. subst c. auto.
    + intros [Hsome Hexp]. right.
      destruct (cs !! i) as [x|] eqn:Hx; [|by destruct Hsome].
      assert (hide && c = false) as ->.
      { destruct hide; [|done]. simpl. by destruct Hexp. }
      apply (elem_of_positions_children hide cs i r 0). exists i, x.
      split; [done|]. split; [done|].
      rewrite Forall_forall in IH. apply IH; [by eapply list_elem_of_lookup_2|].
      split; [done|]. intros ->. by destruct Hexp.
Qed.

Lemma ref_lt_nil_l r : r ≠ [] → ref_lt [] r.
Proof. by destruct r. Qed.

Lemma ref_lt_irrefl r : ¬ ref_lt r r.
Proof.
  induction r as [|i r IH]; simpl; [tauto|]. intros [?|[_ ?]]; [lia|done].
Qed.

Lemma ref_lt_trans p q r : ref_lt p q → ref_lt q r → ref_lt p r.
Proof.
  revert q r. induction p as [|i p IH]; intros [|j q] [|k r]; simpl; try done.
  intros [?|[-> Hpq]] [?|[-> Hqr]]; [left; lia..|]. right. eauto.
Qed.

Lemma ref_lt_app p q r : ref_lt (p ++ q) (p ++ r) ↔ ref_lt q r.
Proof.
  induction p as [|i p IH]; simpl; [done|]. rewrite IH.
  split; [intros [?|[_ ?]]; [lia|done] | by right].
Qed.

Lemma ref_lt_prefix p q : q ≠ [] → ref_lt p (p ++ q).
Proof.
  intros Hq. rewrite <- (app_nil_r p) at 1. apply ref_lt_app.
  by apply ref_lt_nil_l.
Qed.

Lemma positions_children_sorted hide cs k :
  Forall (λ c, StronglySorted ref_lt (positions hide c)) cs →
  StronglySorted ref_lt
    (flat_imap (λ i c, fmap (cons i) (positions hide c)) k cs).
Proof.
  intros H. revert k. induction H as [|c cs Hc _ IH]; intros k; simpl.
  - constructor.
  - apply StronglySorted_app. split_and!.
    + intros p q Hp Hq.
      apply list_elem_of_fmap in Hp as (p' & -> & _).
      destruct q as [|j q]; [|].
      * apply elem_of_flat_imap in Hq as (? & ? & _ & Hq).
        by apply list_elem_of_fmap in Hq as (? & ? & _).
      * apply elem_of_positions_children in Hq as (j' & _ & -> & _).
        simpl. left. lia.
    + eapply (StronglySorted_fmap _ ref_lt ref_lt); [|done].
      intros p q Hpq. simpl. by right.
    + apply IH.
Qed.

Lemma positions_sorted hide n : StronglySorted ref_lt (positions hide n).
Proof.
  induction n as [t cs c IH] using Node_ind'. simpl.
  apply StronglySorted_cons. split.
  - apply Forall_forall. intros r Hr. apply ref_lt_nil_l. intros ->.
    destruct (hide && c); [by apply elem_of_nil in Hr|].
    apply elem_of_flat_imap in Hr as (? & ? & _ & Hr).
    by apply list_elem_of_fmap in Hr as (? & ? & _).
  - destruct (hide && c); [constructor|]. by apply positions_children_sorted.
Qed.

Lemma node_at_app n r q :
  node_at n (r ++ q) = node_at n r ≫= λ m, node_at m q.
Proof.
  revert n. induction r as [|i r IH]; intros n; simpl; [done|].
  by destruct (children n !! i).
Qed.

Lemma node_at_prefix n r q :
  is_Some (node_at n (r ++ q)) → is_Some (node_at n r).
Proof. rewrite node_at_app. destruct (node_at n r); [eauto | by intros [? ?]]. Qed.

Lemma expanded_above_app n r q :
  expanded_above n (r ++ q)
  ↔ expanded_above n r ∧
    match node_at n r with Some m => expanded_above m q | None => True end.
Proof.
  revert n. induction r as [|i r IH]; intros n; simpl; [tauto|].
  destruct (children n !! i) as [c|]; [rewrite IH|]; tauto.
Qed.

Lemma expanded_above_collapsed n r q m :
  node_at n r = Some m → q ≠ [] → expanded_above n (r ++ q) →
  collapsed m = false.
Proof.
  intros Hm Hq [_ H]%expanded_above_app. rewrite Hm in H.
  destruct q; [done|]. by destruct H.
Qed.

Lemma sorted_lookup_lt (l : list NodeRef) j k a b :
  StronglySorted ref_lt l → l !! j = Some a → l !! k = Some b →
  ref_lt a b → j < k.
Proof.
  intros Hs Ha Hb Hab.
  destruct (decide (j < k)) as [|Hge]; [done|]. exfalso.
  destruct (decide (j = k)) as [->|Hne].
  - rewrite Ha in Hb. injection Hb as ->. by apply ref_lt_irrefl in Hab.
  - assert (k < j) as Hkj by lia.
    rewrite <- (take_drop j l) in Hs, Hb.
    apply lookup_lt_Some in Ha as Hj.
    rewrite lookup_app_l in Hb by (rewrite length_take; lia).
    assert (ref_lt b a) as Hba.
    { eapply StronglySorted_app_1_elem_of; [exact Hs | |].
      - by eapply list_elem_of_lookup_2.
      - apply list_elem_of_lookup. exists 0. by rewrite lookup_drop, Nat.add_0_r. }
    eapply ref_lt_irrefl, ref_lt_trans; eauto.
Qed.

Lemma sorted_NoDup (l : list (list nat)) : StronglySorted ref_lt l → NoDup l.
Proof.
  induction 1 as [|r l _ IH Hall]; constructor; [|done].
  intros Hr. rewrite Forall_forall in Hall. by apply Hall, ref_lt_irrefl in Hr.
Qed.

Lemma sorted_filter (P : list nat → Prop) `{∀ r, Decision (P r)} l :
  StronglySorted ref_lt l → StronglySorted ref_lt (filter P l).
Proof.
  induction 1 as [|r l _ IH Hall]; [constructor|].
  rewrite filter_cons. destruct (decide (P r)); [|done].
  constructor; [done|]. apply Forall_forall. intros q [_ Hq]%list_elem_of_filter.
  rewrite Forall_forall in Hall. auto.
Qed.

Lemma sorted_ext (l k : list (list nat)) :
  StronglySorted ref_lt l → StronglySorted ref_lt k →
  (∀ r, r ∈ l ↔ r ∈ k) → l = k.
Proof.
  intros Hl Hk Hlk. apply (StronglySorted_unique_strong ref_lt); [|done..|].
  - intros p q _ _ Hpq Hqp. destruct (ref_lt_irrefl p). by eapply ref_lt_trans.
  - apply NoDup_Permutation; auto using sorted_NoDup.
Qed.

(** C5 — Visibility flattener: [get_visible_nodes] starts at the root and
    lists positions in depth-first pre-order (strictly increasing document
    order): it is the pre-order walk of the whole tree with the nodes that
    have a collapsed node strictly above them left out.  So a position is
    listed exactly when it is a node of the tree with no collapsed node
    strictly above it; every listed child comes after its parent; nothing
    below a collapsed node is listed, whatever the flags further down. *)
Theorem get_visible_nodes_preorder (root : Node) :
  get_visible_nodes root !! 0 = Some [] ∧
  StronglySorted ref_lt (get_visible_nodes root) ∧
  get_visible_nodes root = filter (expanded_above root) (preorder root) ∧
  (∀ r, r ∈ get_visible_nodes root
        ↔ is_Some (node_at root r) ∧ expanded_above root r) ∧
  (∀ j r i, get_visible_nodes root !! j = Some (r ++ [i]) →
            ∃ k, k < j ∧ get_visible_nodes root !! k = Some r) ∧
  (∀ r n q, node_at root r = Some n → collapsed n = true → q ≠ [] →
            r ++ q ∉ get_visible_nodes root).
Proof.
  rewrite get_visible_nodes_visible. unfold visible.
  assert (∀ r, r ∈ positions true root
               ↔ is_Some (node_at root r) ∧ expanded_above root r) as Hmem.
  { intros r. rewrite elem_of_positions. intuition. }
  pose proof (positions_sorted true root) as Hsorted.
  split_and!; [by destruct root | done | | done | |].
  - apply sorted_ext; [done|apply sorted_filter, positions_sorted|].
    intros r. rewrite Hmem, list_elem_of_filter. unfold preorder.
    rewrite elem_of_positions. intuition discriminate.
  - intros j r i Hj.
    assert (r ∈ positions true root) as Hr.
    { apply Hmem. apply list_elem_of_lookup_2, Hmem in Hj as [Hs He].
      split; [by eapply node_at_prefix | apply expanded_above_app in He; tauto]. }
    apply list_elem_of_lookup_1 in Hr as [k Hk]. exists k. split; [|done].
    eapply sorted_lookup_lt; [done..|]. by apply ref_lt_prefix.
  - intros r n q Hn Hc Hq [_ He]%Hmem.
    eapply expanded_above_collapsed in He; [|done..]. congruence.
Qed.

(** ** Selection *)

Lemma getitem_lookup {A} (l : list A) (i : Z) x :
  (0 ≤ i)%Z → l !! Z.to_nat i = Some x → getitem l i = Ok x.
Proof.
  intros Hi Hx. unfold getitem.
  destruct (Z.ltb_spec i 0) as [|_]; [lia|].
  destruct (Z.ltb_spec i 0) as [|_]; [lia|]. by rewrite Hx.
Qed.

Lemma get_visible_nodes_nonempty root : 0 < length (get_visible_nodes root).
Proof. rewrite get_visible_nodes_visible. destruct root; simpl; lia. Qed.

Lemma get_selected_node_spec st :
  let nodes := get_visible_nodes (root st) in
  let c := Z.max 0 (Z.min (selected_index st) (Z.of_nat (length nodes) - 1)) in
  ∃ n, get_selected_node st = Ok (set_selected_index c st, n)
       ∧ nodes !! Z.to_nat c = Some n.
Proof.
  intros nodes c.
  pose proof (get_visible_nodes_nonempty (root st)) as Hlen. fold nodes in Hlen.
  destruct (lookup_lt_is_Some_2 nodes (Z.to_nat c)) as [n Hn]; [lia|].
  exists n. split; [|done].
  unfold get_selected_node. fold nodes. fold c. simpl.
  rewrite (getitem_lookup nodes c n) by (done || lia). done.
Qed.

(** C2 — Selection clamping: whatever integer [selected_index] holds, the
    visible sequence is non-empty, [get_selected_node] returns without
    raising, the node it returns is a member of the current visible
    sequence (the one at the clamped index), and the state it leaves has
    [selected_index] clamped into [0 .. len(visible) - 1] and is otherwise
    unchanged. *)
Theorem get_selected_node_clamps (st : AppState) :
  let nodes := get_visible_nodes (root st) in
  let c := Z.max 0 (Z.min (selected_index st) (Z.of_nat (length nodes) - 1)) in
  0 < length nodes ∧
  (0 ≤ c ≤ Z.of_nat (length nodes) - 1)%Z ∧
  ∃ n, get_selected_node st = Ok (set_selected_index c st, n)
       ∧ nodes !! Z.to_nat c = Some n
       ∧ n ∈ nodes.
Proof.
  intros nodes c.
  pose proof (get_visible_nodes_nonempty (root st)) as Hlen. fold nodes in Hlen.
  split; [done|]. split; [lia|].
  destruct (get_selected_node_spec st) as (n & Hsel & Hn).
  exists n. split_and!; [done..|]. by eapply list_elem_of_lookup_2.
Qed.

(** ** The exporter *)

Lemma to_markdown_unfold node level :
  to_markdown node level =
  (if decide (0 < level) then [heading_line level (text node)] else [])
  ++ to_markdown_children (children node) (level + 1).
Proof.
  destruct node as [t cs c]. unfold heading_line.
  cbn [to_markdown text children app].
  generalize (if decide (0 < level)
              then [str_mul "#" level +:+ " " +:+ t] else []).
  induction cs as [|x cs IH]; intros lines; cbn [to_markdown_children].
  - by rewrite app_nil_r.
  - rewrite IH. by rewrite app_assoc.
Qed.

Lemma deref_cons n i r c :
  children n !! i = Some c → deref n (i :: r) = deref c r.
Proof. intros H. unfold deref. simpl. by rewrite H. Qed.

Lemma preorder_head n : ∃ l, preorder n = [] :: l.
Proof. destruct n. simpl. eauto. Qed.

Lemma to_markdown_positions node : ∀ level,
  to_markdown node level =
  (if decide (0 < level) then [heading_line level (text node)] else [])
  ++ ((λ r, heading_line (level + length r) (text (deref node r)))
        <$> tail (preorder node)).
Proof.
  induction node as [t cs c IH] using Node_ind'. intros level.
  rewrite to_markdown_unfold. f_equal. simpl.
  enough (∀ pre rest, cs = pre ++ rest →
    to_markdown_children rest (level + 1)
    = (λ r, heading_line (level + length r)
              (text (deref (mkNode t cs c) r)))
        <$> flat_imap (λ i x, cons i <$> positions false x) (length pre) rest)
    as H by exact (H [] cs eq_refl).
  intros pre rest. revert pre.
  induction rest as [|x rest IHrest]; intros pre Hcs; simpl; [done|].
  assert (x ∈ cs) as Hx by (subst cs; apply elem_of_app; right; left).
  rewrite Forall_forall in IH. rewrite (IH x Hx).
  rewrite fmap_app. f_equal.
  - destruct (preorder_head x) as [l Hl]. unfold preorder in Hl.
    rewrite Hl. simpl.
    assert (cs !! length pre = Some x) as Hlook.
    { subst cs. by rewrite list_lookup_middle. }
    destruct (decide (0 < level + 1)) as [_|]; [|lia]. simpl. f_equal.
    + f_equal. by rewrite (deref_cons _ _ [] x).
    + unfold preorder. rewrite Hl. simpl.
      rewrite <- list_fmap_compose. apply list_fmap_ext. intros _ r _. simpl.
      f_equal; [lia|]. by rewrite (deref_cons _ _ r x).
  - rewrite (IHrest (pre ++ [x])).
    + rewrite length_app. simpl. by rewrite Nat.add_1_r.
    + by rewrite <- app_assoc.
Qed.

Lemma elem_of_tail_positions hide n r :
  r ∈ tail (positions hide n) ↔ r ≠ [] ∧ r ∈ positions hide n.
Proof.
  pose proof (positions_sorted hide n) as Hs.
  destruct n as [t cs c]. simpl in *.
  apply StronglySorted_cons in Hs as [Hall _]. rewrite Forall_forall in Hall.
  rewrite elem_of_cons. split.
  - intros Hr. split; [|by right]. intros ->.
    by apply Hall, ref_lt_irrefl in Hr.
  - intros [Hne [?|?]]; done.
Qed.


(** ** Mutation at a position *)

Lemma node_at_update_at f r : ∀ n m,
  node_at n r = Some m → node_at (update_at f r n) r = Some (f m).
Proof.
  induction r as [|i r IH]; intros n m; simpl.
  - by intros [= ->].
  - rewrite list_lookup_alter_eq.
    destruct (children n !! i) as [c|]; [|done]. simpl. apply IH.
Qed.

Lemma update_at_ext f g r n :
  (∀ m, f m = g m) → update_at f r n = update_at g r n.
Proof.
  intros Hfg. revert n. induction r as [|i r IH]; intros n; simpl; [done|].
  f_equal. apply list_alter_ext; [auto | done].
Qed.

Lemma update_at_compose f g r : ∀ n,
  update_at f r (update_at g r n) = update_at (f ∘ g) r n.
Proof.
  induction r as [|i r IH]; intros n; simpl; [done|]. f_equal.
  rewrite list_alter_alter_eq. apply list_alter_ext; [|done].
  intros c _. apply IH.
Qed.

Lemma update_at_id f r n : (∀ m, f m = m) → update_at f r n = n.
Proof.
  intros Hf. revert n. induction r as [|i r IH]; intros n; simpl; [done|].
  rewrite list_alter_id by done. by destruct n.
Qed.

Lemma deref_node_at n r m : node_at n r = Some m → deref n r = m.
Proof. unfold deref. by intros ->. Qed.

(** The visible sequence around a visible position [r]: what is listed
    before the subtree at [r] and after it does not depend on that
    subtree. *)
Lemma visible_update_at r : ∀ n m,
  node_at n r = Some m → expanded_above n r →
  ∃ pre post,
    ∀ f, visible (update_at f r n)
         = pre ++ (app r <$> visible (f m)) ++ post.
Proof.
  induction r as [|i r IH]; intros n m Hm Hexp; simpl in *.
  - injection Hm as ->. exists [], []. intros f. simpl.
    rewrite app_nil_r. by rewrite list_fmap_id.
  - destruct Hexp as [Hc Hexp].
    destruct (children n !! i) as [x|] eqn:Hx; [|done].
    destruct (IH x m Hm Hexp) as (pre & post & Hvis).
    set (F := λ (i : nat) (c : Node), cons i <$> positions true c).
    exists ([] :: flat_imap F 0 (take i (children n)) ++ (cons i <$> pre)),
           ((cons i <$> post) ++ flat_imap F (S i) (drop (S i) (children n))).
    intros f. unfold visible at 1. simpl. rewrite Hc. simpl. f_equal.
    fold F.
    assert (alter (update_at f r) i (children n)
            = take i (children n) ++ update_at f r x :: drop (S i) (children n))
      as ->.
    { rewrite <- (take_drop_middle (children n) i x) at 1 by done.
      apply lookup_lt_Some in Hx.
      rewrite alter_app_r_alt by (rewrite length_take; lia).
      rewrite length_take_le by lia. by rewrite Nat.sub_diag. }
    rewrite flat_imap_app. simpl.
    apply lookup_lt_Some in Hx as Hi.
    rewrite length_take_le by lia. simpl.
    unfold F at 2. fold visible. rewrite (Hvis f).
    rewrite !fmap_app, <- !app_assoc. do 3 f_equal.
    rewrite <- list_fmap_compose. done.
Qed.

Lemma visible_update_at_id r n m :
  node_at n r = Some m → expanded_above n r →
  ∃ pre post,
    visible n = pre ++ (app r <$> visible m) ++ post ∧
    ∀ f, visible (update_at f r n)
         = pre ++ (app r <$> visible (f m)) ++ post.
Proof.
  intros Hm Hexp. destruct (visible_update_at r n m Hm Hexp) as (pre & post & H).
  exists pre, post. split; [|done].
  pose proof (H id) as Hid. by rewrite update_at_id in Hid.
Qed.

Lemma visible_head n : ∃ l, visible n = [] :: l.
Proof. destruct n. simpl. eauto. Qed.

Lemma visible_lookup_unique n i j r :
  visible n !! i = Some r → visible n !! j = Some r → i = j.
Proof.
  intros Hi Hj. pose proof (positions_sorted true n) as Hs. fold visible in Hs.
  destruct (decide (i = j)) as [|Hne]; [done|]. exfalso.
  assert (∀ a b, a < b → visible n !! a = Some r → visible n !! b = Some r → False)
    as Hlt.
  { intros a b Hab Ha Hb.
    rewrite <- (take_drop b (visible n)) in Hs, Ha.
    apply lookup_lt_Some in Hb as Hlen.
    rewrite lookup_app_l in Ha by (rewrite length_take; lia).
    eapply (ref_lt_irrefl r), StronglySorted_app_1_elem_of; [exact Hs | |].
    - by eapply list_elem_of_lookup_2.
    - apply list_elem_of_lookup. exists 0. by rewrite lookup_drop, Nat.add_0_r. }
  destruct (decide (i < j)); [eapply (Hlt i j) | eapply (Hlt j i)]; eauto; lia.
Qed.

Lemma visible_valid n i r :
  visible n !! i = Some r →
  ∃ m, node_at n r = Some m ∧ expanded_above n r.
Proof.
  intros H%list_elem_of_lookup_2. apply elem_of_positions in H as [[m Hm] He].
  exists m. auto.
Qed.

(** Mutating the node at the [i]-th visible position keeps it at index [i]
    and changes the length of the sequence by what its subtree lists. *)
Lemma visible_update_at_lookup n i r m f :
  visible n !! i = Some r → node_at n r = Some m →
  visible (update_at f r n) !! i = Some r ∧
  length (visible (update_at f r n)) + length (visible m)
  = length (visible n) + length (visible (f m)) ∧
  (∀ q, q ∈ visible (f m) → r ++ q ∈ visible (update_at f r n)).
Proof.
  intros Hi Hm. destruct (visible_valid n i r Hi) as (m' & Hm' & Hexp).
  assert (m' = m) as -> by congruence.
  destruct (visible_update_at_id r n m Hm Hexp) as (pre & post & Hn & Hf).
  assert (∀ x, (pre ++ (app r <$> visible x) ++ post) !! length pre = Some r)
    as Hat.
  { intros x. destruct (visible_head x) as [l ->]. simpl.
    rewrite list_lookup_middle by done. by rewrite app_nil_r. }
  assert (i = length pre) as ->.
  { eapply visible_lookup_unique; [exact Hi|]. rewrite Hn. apply Hat. }
  rewrite Hf, Hn. split_and!.
  - apply Hat.
  - rewrite !length_app, !length_fmap. lia.
  - intros q Hq. rewrite !elem_of_app. right; left.
    apply list_elem_of_fmap. eauto.
Qed.

Lemma get_selected_node_at st i r :
  get_visible_nodes (root st) !! i = Some r →
  selected_index st = Z.of_nat i →
  get_selected_node st = Ok (st, r).
Proof.
  intros Hi Hsel. destruct (get_selected_node_spec st) as (n & Hget & Hn).
  apply lookup_lt_Some in Hi as Hlt.
  rewrite Hsel in Hget, Hn.
  replace (Z.max 0 (Z.min (Z.of_nat i)
             (Z.of_nat (length (get_visible_nodes (root st))) - 1)))
    with (Z.of_nat i) in * by lia.
  rewrite Nat2Z.id in Hn. rewrite Hget. f_equal. f_equal; [|congruence].
  destruct st; unfold set_selected_index; simpl in *. by subst.
Qed.

(** ** Toggle collapse *)

(** C9 — Visibility monotonicity: let the selected node be any visible node
    [r] that has children.  Toggling its collapsed flag changes the length
    of the visible sequence by exactly the number of nodes the flattener
    lists below [r] when [r] is expanded: that many fewer when [r] was
    expanded, that many more when it was collapsed.  Toggling again gives
    back the original tree, and so the original count. *)
Theorem toggle_collapse_count (s : Session) (i : nat) (r : NodeRef) :
  let root0 := root (state s) in
  let below :=
    length (get_visible_nodes (set_collapsed false (deref root0 r))) - 1 in
  get_visible_nodes root0 !! i = Some r →
  selected_index (state s) = Z.of_nat i →
  children (deref root0 r) ≠ [] →
  ∃ s1 s2,
    toggle_collapse s = Ok s1 ∧
    toggle_collapse s1 = Ok s2 ∧
    root (state s1)
    = update_at (λ n, set_collapsed (negb (collapsed n)) n) r root0 ∧
    (if collapsed (deref root0 r)
     then length (get_visible_nodes (root (state s1)))
          = length (get_visible_nodes root0) + below
     else length (get_visible_nodes root0)
          = length (get_visible_nodes (root (state s1))) + below) ∧
    root (state s2) = root0 ∧
    length (get_visible_nodes (root (state s2)))
    = length (get_visible_nodes root0).
Proof.
  intros root0 below Hi Hsel Hch.
  set (toggle := λ n, set_collapsed (negb (collapsed n)) n).
  rewrite get_visible_nodes_visible in Hi.
  destruct (visible_valid _ _ _ Hi) as (m & Hm & Hexp).
  rewrite (deref_node_at _ _ _ Hm) in *.
  destruct (visible_update_at_lookup root0 i r m toggle Hi Hm)
    as (Hi1 & Hlen & _).
  set (s1 := set_state (set_root (update_at toggle r root0) (state s)) s).
  assert (toggle_collapse s = Ok s1) as Hs1.
  { unfold toggle_collapse.
    rewrite (get_selected_node_at (state s) i r)
      by (by rewrite ?get_visible_nodes_visible).
    simpl. fold root0. rewrite (deref_node_at _ _ _ Hm).
    by destruct (decide (children m ≠ [])). }
  assert (node_at (update_at toggle r root0) r = Some (toggle m)) as Hm1
    by (by apply node_at_update_at).
  assert (update_at toggle r (update_at toggle r root0) = root0) as Hback.
  { rewrite update_at_compose. apply update_at_id.
    intros [t cs c]. unfold toggle, set_collapsed. simpl.
    by rewrite negb_involutive. }
  exists s1, (set_state (set_root root0 (state s1)) s1).
  split_and!; [done| |done| |done|done].
  - unfold toggle_collapse.
    rewrite (get_selected_node_at (state s1) i r)
      by (simpl; by rewrite ?get_visible_nodes_visible).
    simpl. rewrite (deref_node_at _ _ _ Hm1). simpl.
    destruct (decide (children m ≠ [])); [|done].
    fold toggle. by rewrite Hback.
  - simpl. subst below. rewrite ?(deref_node_at _ _ _ Hm).
    rewrite !get_visible_nodes_visible. clear Hs1 Hm1 Hback.
    unfold toggle in *.
    destruct m as [t cs [|]]; unfold visible in *; simpl in *; lia.
Qed.

(** ** Insert child *)

Lemma list_index_elem `{EqDecision A} (x : A) l :
  x ∈ l → ∃ i, list_index x l = Ok i ∧ l !! i = Some x.
Proof.
  induction l as [|y l IH]; intros Hx; [by apply elem_of_nil in Hx|]. simpl.
  destruct (decide (y = x)) as [->|Hne]; [by exists 0|].
  apply elem_of_cons in Hx as [?|Hx]; [congruence|].
  destruct (IH Hx) as (i & -> & Hi). by exists (S i).
Qed.

Lemma get_selected_node_root st st' r :
  get_selected_node st = Ok (st', r) →
  root st' = root st ∧ is_editing st' = is_editing st ∧
  get_visible_nodes (root st) !! Z.to_nat (selected_index st') = Some r ∧
  (0 ≤ selected_index st')%Z.
Proof.
  destruct (get_selected_node_spec st) as (n & Hget & Hn).
  rewrite Hget. intros [= <- <-]. simpl. split_and!; [done..|lia].
Qed.

(** [add_child_and_edit] targets the node it appends below the selected
    one. *)
Lemma add_child_enters (s : Session) :
  ∃ st par m s1 i,
    get_selected_node (state s) = Ok (st, par) ∧
    node_at (root (state s)) par = Some m ∧
    add_child_and_edit s = Ok s1 ∧
    root (state s1)
    = update_at
        (λ n, mkNode (text n) (children n ++ [Node_init "New Node"]) false)
        par (root (state s)) ∧
    get_visible_nodes (root (state s1)) !! i
    = Some (par ++ [length (children m)]) ∧
    selected_index (state s1) = Z.of_nat i ∧
    is_editing (state s1) = true ∧
    edit_input_text s1 = "".
Proof.
  destruct (get_selected_node_spec (state s)) as (par & Hget & Hpar).
  set (st := set_selected_index _ (state s)) in Hget.
  rewrite get_visible_nodes_visible in Hpar.
  destruct (visible_valid _ _ _ Hpar) as (m & Hm & Hexp).
  set (f := λ n, mkNode (text n) (children n ++ [Node_init "New Node"]) false).
  set (tree := update_at f par (root (state s))).
  set (new_ref := par ++ [length (children m)]).
  destruct (visible_update_at_lookup _ _ par m f Hpar Hm) as (_ & _ & Hin).
  assert (new_ref ∈ visible tree) as Hnew.
  { apply Hin. apply elem_of_positions. simpl.
    rewrite lookup_app_r, Nat.sub_diag by done. simpl. eauto. }
  destruct (list_index_elem new_ref (visible tree) Hnew) as (i & Hidx & Hlook).
  eexists st, par, m, _, i. split; [exact Hget|]. split; [exact Hm|].
  unfold add_child_and_edit. rewrite Hget. simpl.
  rewrite update_at_compose.
  rewrite (update_at_ext (set_collapsed false ∘ _) f) by done.
  fold tree. rewrite get_visible_nodes_visible.
  rewrite (deref_node_at _ _ _ Hm). fold new_ref. rewrite Hidx. simpl.
  split_and!; try done. by rewrite get_visible_nodes_visible.
Qed.

(** C7 — Insert-child visibility: from any state, [add_child_and_edit]
    returns; the node that was selected ([par]) keeps its text, has the new
    node ["New Node"] appended as its last child and is not collapsed,
    whatever its flag was before; the new node is listed in the visible
    sequence recomputed on the new tree, [selected_index] is its index
    there, and it is the node [get_selected_node] returns next; the editor
    is in text-entry mode with an empty input. *)
Theorem add_child_and_edit_visible (s : Session) :
  ∃ st par s',
    get_selected_node (state s) = Ok (st, par) ∧
    add_child_and_edit s = Ok s' ∧
    let old := deref (root (state s)) par in
    let new_ref := par ++ [length (children old)] in
    root (state s')
    = update_at
        (λ n, mkNode (text n) (children n ++ [Node_init "New Node"]) false)
        par (root (state s)) ∧
    node_at (root (state s')) par
    = Some (mkNode (text old) (children old ++ [Node_init "New Node"]) false) ∧
    node_at (root (state s')) new_ref = Some (Node_init "New Node") ∧
    new_ref ∈ get_visible_nodes (root (state s')) ∧
    (∃ idx, selected_index (state s') = Z.of_nat idx ∧
            get_visible_nodes (root (state s')) !! idx = Some new_ref) ∧
    get_selected_node (state s') = Ok (state s', new_ref) ∧
    is_editing (state s') = true ∧
    edit_input_text s' = "".
Proof.
  destruct (add_child_enters s)
    as (st & par & m & s' & i & Hget & Hm & Hadd & Hroot & Hi & Hsel & Hed & Hin).
  exists st, par, s'. rewrite (deref_node_at _ _ _ Hm). simpl.
  assert (node_at (root (state s')) par
          = Some (mkNode (text m) (children m ++ [Node_init "New Node"]) false))
    as Hpar.
  { rewrite Hroot.
    apply (node_at_update_at
             (λ n, mkNode (text n) (children n ++ [Node_init "New Node"]) false)
             _ _ _ Hm). }
  split_and!; try done.
  - rewrite node_at_app, Hpar. simpl. by rewrite lookup_app_r, Nat.sub_diag.
  - by eapply list_elem_of_lookup_2.
  - by exists i.
  - by apply (get_selected_node_at _ i).
Qed.

(** ** Commands that do nothing *)

(** C8 — Silent no-ops: let [r] be the selected node and [st] the state
    with the index clamped, as [get_selected_node] returns them.  When [r]
    is the root (it has no parent), delete and insert-sibling return
    without raising and leave [st]: the tree is the one before, and the
    editor does not enter text-entry mode.  When [r] has no children,
    toggle-collapse does the same. *)
Theorem silent_noops (s : Session) (st : AppState) (r : NodeRef) :
  get_selected_node (state s) = Ok (st, r) →
  root st = root (state s) ∧
  is_editing st = is_editing (state s) ∧
  (parent r = None →
     delete_node s = Ok (set_state st s) ∧
     add_sibling_and_edit s = Ok (set_state st s)) ∧
  (children (deref (root (state s)) r) = [] →
     toggle_collapse s = Ok (set_state st s)).
Proof.
  intros Hget. destruct (get_selected_node_root _ _ _ Hget) as (Hroot & Hed & _).
  split_and!; [done..| |].
  - intros Hp. unfold delete_node, add_sibling_and_edit.
    rewrite Hget. simpl. by rewrite Hp.
  - intros Hch. unfold toggle_collapse. rewrite Hget. simpl.
    rewrite Hroot, Hch. by destruct (decide _).
Qed.

(** ** Text entry *)

Lemma set_state_state s : set_state (state s) s = s.
Proof. by destruct s. Qed.

Lemma get_ui_content_at s i r :
  get_visible_nodes (root (state s)) !! i = Some r →
  selected_index (state s) = Z.of_nat i →
  get_ui_content s = Ok s.
Proof.
  intros Hi Hsel. unfold get_ui_content.
  rewrite (get_selected_node_at _ i r Hi Hsel). simpl.
  by rewrite set_state_state.
Qed.

(** How text entry begins: [rename] leaves the tree alone and targets the
    selected node, pre-filling the input with its text. *)
Lemma rename_enters (s : Session) :
  ∃ st r i,
    get_selected_node (state s) = Ok (st, r) ∧
    rename s
    = Ok (trigger_edit (text (deref (root (state s)) r)) (set_state st s)) ∧
    root st = root (state s) ∧
    get_visible_nodes (root st) !! i = Some r ∧
    selected_index st = Z.of_nat i.
Proof.
  destruct (get_selected_node_spec (state s)) as (r & Hget & Hr).
  eexists _, r, _. split; [exact Hget|]. unfold rename. rewrite Hget. simpl.
  split_and!; [done..|]. lia.
Qed.

(** [add_sibling_and_edit] below the root targets the new node, placed
    right after the selected one. *)
Lemma add_sibling_enters (s : Session) st cur par :
  get_selected_node (state s) = Ok (st, cur) →
  parent cur = Some par →
  let new_ref := par ++ [List.last cur 0 + 1] in
  ∃ s1 i,
    add_sibling_and_edit s = Ok s1 ∧
    root (state s1)
    = update_at
        (λ p, set_children
                (list_insert_at (List.last cur 0 + 1) (Node_init "New Sibling")
                   (children p)) p)
        par (root (state s)) ∧
    node_at (root (state s1)) new_ref = Some (Node_init "New Sibling") ∧
    get_visible_nodes (root (state s1)) !! i = Some new_ref ∧
    selected_index (state s1) = Z.of_nat i ∧
    is_editing (state s1) = true ∧
    edit_input_text s1 = "".
Proof.
  intros Hget Hpar new_ref.
  destruct (get_selected_node_root _ _ _ Hget) as (Hroot & _ & Hcur & _).
  rewrite get_visible_nodes_visible in Hcur.
  apply list_elem_of_lookup_2, elem_of_positions in Hcur as [Hvalid Hexp].
  specialize (Hexp eq_refl).
  set (k := List.last cur 0) in *.
  assert (cur = par ++ [k]) as Hcur_eq.
  { destruct cur as [|a cur]; [done|]. injection Hpar as <-.
    apply app_removelast_last. done. }
  rewrite Hcur_eq in Hvalid, Hexp.
  apply expanded_above_app in Hexp as [Hexp_par Hexp_k].
  rewrite node_at_app in Hvalid.
  destruct (node_at (root (state s)) par) as [m|] eqn:Hm; [|by destruct Hvalid].
  simpl in Hvalid, Hexp_k. destruct Hexp_k as [Hcm _].
  destruct (children m !! k) as [c|] eqn:Hk; [|by destruct Hvalid].
  apply lookup_lt_Some in Hk as Hlt.
  set (f := λ p, set_children
                   (list_insert_at (k + 1) (Node_init "New Sibling")
                      (children p)) p).
  assert (par ∈ visible (root (state s))) as [j Hj]%list_elem_of_lookup_1.
  { apply elem_of_positions. split; [by rewrite Hm | done]. }
  assert (node_at (f m) [k + 1] = Some (Node_init "New Sibling")) as Hnew.
  { simpl. unfold list_insert_at.
    rewrite lookup_app_r by (rewrite length_take; lia).
    rewrite length_take_le by lia. by rewrite Nat.sub_diag. }
  destruct (visible_update_at_lookup _ j par m f Hj Hm) as (_ & _ & Hin).
  assert (new_ref ∈ visible (update_at f par (root (state s)))) as Hvis.
  { apply Hin, elem_of_positions. rewrite Hnew. split; [eauto|].
    intros _. split; [exact Hcm|].
    destruct (children (f m) !! (k + 1)); exact I. }
  destruct (list_index_elem _ _ Hvis) as (i & Hidx & Hi).
  eexists _, i. unfold add_sibling_and_edit. rewrite Hget. simpl.
  rewrite Hpar, Hroot. fold k f new_ref.
  rewrite get_visible_nodes_visible, Hidx. simpl.
  split_and!; try done.
  - simpl. unfold new_ref. rewrite node_at_app.
    by rewrite (node_at_update_at f par _ m).
  - simpl. by rewrite get_visible_nodes_visible.
Qed.

(** Commit and cancel in text-entry mode, with [target] the selected
    node and [t] the text typed. *)
Lemma commit_cancel_at (s : Session) (i : nat) (target : NodeRef)
  (t : string) :
  is_editing (state s) = true →
  get_visible_nodes (root (state s)) !! i = Some target →
  selected_index (state s) = Z.of_nat i →
  let stored := if decide (t = "") then "Untitled" else t in
  (∃ s2, run [typed t; key_enter] s = Ok s2 ∧
         root (state s2) = update_at (set_text stored) target (root (state s)) ∧
         text (deref (root (state s2)) target) = stored ∧
         is_editing (state s2) = false ∧
         focus s2 = root_window) ∧
  (∃ s2, run [typed t; key_escape] s = Ok s2 ∧
         root (state s2) = root (state s) ∧
         is_editing (state s2) = false ∧
         focus s2 = root_window).
Proof.
  intros Hed Hi Hsel stored.
  set (s1 := mkSession (state s) t (focus s) (exited s) (file s)).
  assert (press (typed t) s = Ok s1) as Hpress.
  { unfold press. by rewrite Hed. }
  assert (get_ui_content s1 = Ok s1) as Hpaint
    by (by apply (get_ui_content_at s1 i target)).
  rewrite get_visible_nodes_visible in Hi.
  destruct (visible_valid _ _ _ Hi) as (m & Hm & _).
  destruct (visible_update_at_lookup _ i target m (set_text stored) Hi Hm)
    as (Hi' & _ & _).
  split.
  - set (st2 := set_is_editing false
                  (set_root (update_at (set_text stored) target (root (state s)))
                     (state s))).
    set (s2 := mkSession st2 t root_window (exited s) (file s)).
    assert (press key_enter s1 = Ok s2) as Hcommit.
    { unfold press. simpl. rewrite Hed. unfold finish_edit. simpl.
      rewrite (get_selected_node_at (state s) i target)
        by (by rewrite ?get_visible_nodes_visible).
      done. }
    exists s2. simpl. rewrite Hpress. simpl. rewrite Hpaint. simpl.
    rewrite Hcommit. simpl.
    rewrite (get_ui_content_at s2 i target)
      by (simpl; by rewrite ?get_visible_nodes_visible).
    split_and!; try done.
    by rewrite (deref_node_at _ _ _ (node_at_update_at _ _ _ _ Hm)).
  - set (s2 := mkSession (set_is_editing false (state s)) t root_window
                 (exited s) (file s)).
    exists s2. simpl. rewrite Hpress. simpl. rewrite Hpaint. simpl.
    unfold press. simpl. rewrite Hed. unfold cancel_edit. simpl. fold s2.
    rewrite (get_ui_content_at s2 i target)
      by (simpl; by rewrite ?get_visible_nodes_visible).
    done.
Qed.

(** C6 — Text-entry transitions: let a command given in navigation mode
    open the text input; its target is the selected node (rename) or the
    node it has just inserted (insert child, insert sibling), and on entry
    that node is the selected one.  Whatever text [t] is then typed, commit
    ([enter]) stores [t], or the literal ["Untitled"] when [t] is empty,
    as the text of the target, changes nothing else in the tree and
    returns to navigation mode; cancel ([escape]) returns to navigation
    mode with the tree, and so the target, unchanged: the typed text is
    stored nowhere in it. *)
Theorem text_entry_transitions (s s1 : Session) (k : Key) (t : string) :
  is_editing (state s) = false →
  press k s = Ok s1 →
  is_editing (state s1) = true →
  ∃ target,
    entry_target k s = Some target ∧
    get_selected_node (state s1) = Ok (state s1, target) ∧
    let stored := if decide (t = "") then "Untitled" else t in
    (∃ s2, run [typed t; key_enter] s1 = Ok s2 ∧
           root (state s2)
           = update_at (set_text stored) target (root (state s1)) ∧
           text (deref (root (state s2)) target) = stored ∧
           is_editing (state s2) = false ∧
           focus s2 = root_window) ∧
    (∃ s2, run [typed t; key_escape] s1 = Ok s2 ∧
           root (state s2) = root (state s1) ∧
           is_editing (state s2) = false ∧
           focus s2 = root_window).
Proof.
  intros Hnav Hpress Hed.
  enough (∃ i target,
            get_visible_nodes (root (state s1)) !! i = Some target ∧
            selected_index (state s1) = Z.of_nat i ∧
            entry_target k s = Some target)
    as (i & target & Hi & Hsel & Htarget).
  { exists target. split; [done|].
    split; [by apply (get_selected_node_at _ i)|].
    by apply (commit_cancel_at s1 i target t). }
  unfold press in Hpress. rewrite Hnav in Hpress.
  destruct k; simpl in Hpress.
  - injection Hpress as <-. simpl in Hed. congruence.
  - injection Hpress as <-. simpl in Hed. congruence.
  - injection Hpress as <-. simpl in Hed. congruence.
  - destruct (rename_enters s) as (st & r & i & Hget & Hren & Hroot & Hi & Hsel).
    rewrite Hren in Hpress. injection Hpress as <-.
    exists i, r. split_and!; [done..|]. unfold entry_target. by rewrite Hget.
  - destruct (add_child_enters s)
      as (st & par & m & s' & i & Hget & Hm & Hadd & _ & Hi & Hsel & _).
    rewrite Hadd in Hpress. injection Hpress as ->.
    eexists i, _. split_and!; [done..|]. unfold entry_target. rewrite Hget.
    destruct (get_selected_node_root _ _ _ Hget) as (-> & _).
    by rewrite (deref_node_at _ _ _ Hm).
  - destruct (get_selected_node_spec (state s)) as (cur & Hget & _).
    destruct (parent cur) as [par|] eqn:Hpar.
    + destruct (add_sibling_enters s _ cur par Hget Hpar)
        as (s' & i & Hadd & _ & _ & Hi & Hsel & _).
      rewrite Hadd in Hpress. injection Hpress as ->.
      eexists i, _. split_and!; [done..|].
      unfold entry_target. by rewrite Hget, Hpar.
    + unfold add_sibling_and_edit in Hpress. rewrite Hget in Hpress.
      simpl in Hpress. rewrite Hpar in Hpress. injection Hpress as <-.
      simpl in Hed. congruence.
  - injection Hpress as <-. congruence.
  - destruct (get_selected_node_spec (state s)) as (node & Hget & _).
    unfold delete_node in Hpress. rewrite Hget in Hpress. simpl in Hpress.
    destruct (parent node); injection Hpress as <-; simpl in Hed; congruence.
  - injection Hpress as <-. simpl in Hed. congruence.
  - destruct (get_selected_node_spec (state s)) as (node & Hget & _).
    unfold toggle_collapse in Hpress. rewrite Hget in Hpress. simpl in Hpress.
    destruct (decide _); injection Hpress as <-; simpl in Hed; congruence.
  - injection Hpress as <-. congruence.
Qed.


(** ** Collapse flags and persistence *)

Lemma to_markdown_uncollapse n : ∀ level,
  to_markdown (uncollapse n) level = to_markdown n level.
Proof.
  induction n as [t cs c IH] using Node_ind'. intros level.
  rewrite !to_markdown_unfold. simpl. f_equal.
  induction IH as [|x cs Hx _ IHcs]; [done|].
  rewrite fmap_cons. simpl. by rewrite Hx, IHcs.
Qed.

Lemma uncollapse_update_at f g r : ∀ n,
  (∀ m, uncollapse (f m) = g (uncollapse m)) →
  uncollapse (update_at f r n) = update_at g r (uncollapse n).
Proof.
  induction r as [|i r IH]; intros [t cs c] Hfg; simpl; [done|]. f_equal.
  apply list_fmap_alter, Forall_forall. intros x _. by apply IH.
Qed.

Lemma node_at_uncollapse n r :
  node_at (uncollapse n) r = uncollapse <$> node_at n r.
Proof.
  revert n. induction r as [|i r IH]; intros [t cs c]; simpl; [done|].
  rewrite list_lookup_fmap. destruct (cs !! i); simpl; [apply IH|done].
Qed.

Lemma uncollapse_fixed n r m :
  uncollapse n = n → node_at n r = Some m → collapsed m = false.
Proof.
  intros Hn Hm.
  assert (node_at (uncollapse n) r = Some (uncollapse m)) as Hu
    by (by rewrite node_at_uncollapse, Hm).
  rewrite Hn, Hm in Hu. injection Hu as Hu. rewrite Hu. by destruct m.
Qed.

Lemma parse_heading_expanded tokens i token root stack root' stack' :
  uncollapse root = root →
  parse_heading tokens i token root stack = Ok (root', stack') →
  uncollapse root' = root'.
Proof.
  intros Hroot. unfold parse_heading.
  destruct (str_getitem (tag token) 1) as [c|]; [|done]. simpl.
  destruct (int_of_char c) as [level|]; [|done]. simpl.
  destruct (getitem tokens (Z.of_nat i + 1)) as [next|]; [|done]. simpl.
  destruct (stack_top (pop_while level stack)) as [[l par]|]; [|done]. simpl.
  intros [= <- _].
  rewrite (uncollapse_update_at _
             (λ p, set_children (children p ++ [Node_init (content next)]) p)).
  - by rewrite Hroot.
  - intros [t cs b]. unfold set_children. simpl. by rewrite fmap_app.
Qed.

Lemma parse_loop_expanded tokens todo : ∀ i root stack root',
  uncollapse root = root →
  parse_loop tokens i todo root stack = Ok root' →
  uncollapse root' = root'.
Proof.
  induction todo as [|token todo IH]; intros i root stack root' Hroot; simpl.
  - by intros [= <-].
  - destruct (decide (type token = "heading_open")); [|by apply IH].
    destruct (parse_heading tokens i token root stack) as [[r1 s1]|] eqn:Hh;
      [|done].
    simpl. apply IH. by eapply parse_heading_expanded.
Qed.

Lemma parse_md_expanded `{MarkdownIt} md_text name r :
  parse_md md_text name = Ok r → uncollapse r = r.
Proof. unfold parse_md. by apply parse_loop_expanded. Qed.

(** C10 — Collapse state is never persisted: two trees that differ only in
    collapsed flags export to the same lines; every node of a tree that
    [parse_md] returns, whatever the tokenizer and the document, has
    [collapsed = false]; so after a save followed by a load every node of
    the loaded tree is expanded, and the file written is the one the tree
    with all flags cleared would have written. *)
Theorem collapse_not_persisted :
  (∀ a b level, same_structure a b → to_markdown a level = to_markdown b level) ∧
  (∀ (M : MarkdownIt) md_text name r,
     parse_md md_text name = Ok r →
     ∀ p n, node_at r p = Some n → collapsed n = false) ∧
  (∀ (M : MarkdownIt) s s1 s2,
     save s = Ok s1 →
     main (filename (state s1)) (file s1) = Ok s2 →
     file s1
     = Some (String.concat newline (to_markdown (uncollapse (root (state s))) 0)) ∧
     ∀ p n, node_at (root (state s2)) p = Some n → collapsed n = false).
Proof.
  split_and!.
  - intros a b level Hab.
    rewrite <- (to_markdown_uncollapse a), <- (to_markdown_uncollapse b).
    unfold same_structure in Hab. by rewrite Hab.
  - intros M md_text name r Hr p n Hn.
    eapply uncollapse_fixed; [|done]. by eapply parse_md_expanded.
  - intros M s s1 s2 Hsave Hmain. unfold save in Hsave.
    injection Hsave as <-. simpl in *. split.
    + by rewrite to_markdown_uncollapse.
    + unfold main in Hmain. simpl in Hmain.
      destruct (parse_md _ _) as [r|] eqn:Hr; [|done]. simpl in Hmain.
      injection Hmain as <-. simpl. intros p n Hn.
      eapply uncollapse_fixed; [|done]. by eapply parse_md_expanded.
Qed.

(** ** The importer's loop, heading by heading *)

Lemma parse_heading_attach tokens i token next rest root stack :
  heading_wf tokens →
  drop i tokens = token :: next :: rest →
  type token = "heading_open" →
  parse_heading tokens i token root stack
  = attach (token_level token, content next) (root, stack).
Proof.
  intros Hwf Hdrop Htype.
  assert (tokens !! i = Some token) as Hi.
  { rewrite <- (Nat.add_0_r i), <- lookup_drop, Hdrop. done. }
  assert (tokens !! S i = Some next) as Hnext.
  { rewrite <- Nat.add_1_r, <- lookup_drop, Hdrop. done. }
  destruct (Hwf i token Hi Htype) as ((c & Hc & Hlo & Hhi) & _).
  unfold parse_heading, attach, token_level, str_getitem, int_of_char.
  rewrite Hc. simpl.
  destruct (decide (48 ≤ nat_of_ascii c ∧ nat_of_ascii c ≤ 57)) as [_|]; [|lia].
  simpl. rewrite (getitem_lookup tokens _ next); [done|lia|].
  by replace (Z.to_nat (Z.of_nat i + 1)) with (S i) by lia.
Qed.

Lemma parse_loop_attach_all tokens :
  heading_wf tokens →
  ∀ todo i root stack,
    drop i tokens = todo →
    parse_loop tokens i todo root stack
    = st ← attach_all (headings todo) (root, stack); Ok st.1.
Proof.
  intros Hwf. induction todo as [|token todo IH]; intros i root stack Hdrop;
    simpl; [done|].
  assert (drop (S i) tokens = todo) as Hdrop'.
  { replace (S i) with (i + 1) by lia. by rewrite <- drop_drop, Hdrop. }
  destruct (decide (type token = "heading_open")) as [Htype|]; [|by apply IH].
  assert (tokens !! i = Some token) as Hi.
  { rewrite <- (Nat.add_0_r i), <- lookup_drop, Hdrop. done. }
  destruct (Hwf i token Hi Htype) as (_ & [next Hnext]).
  destruct todo as [|next' todo'].
  { apply lookup_lt_Some in Hnext. apply (f_equal length) in Hdrop'.
    rewrite length_drop in Hdrop'. simpl in Hdrop'. lia. }
  rewrite (parse_heading_attach tokens i token next' todo') by done.
  simpl. destruct (attach _ _) as [[r1 s1]|]; simpl; [|done].
  by apply IH.
Qed.

(** ** Appending on the rightmost branch *)

Lemma on_spine_valid r : ∀ n, on_spine n r → is_Some (node_at n r).
Proof.
  induction r as [|i r IH]; intros n; simpl; [eauto|].
  intros [_ H]. destruct (children n !! i); [by apply IH | done].
Qed.

Lemma on_spine_prefix p q : ∀ n, on_spine n (p ++ q) → on_spine n p.
Proof.
  induction p as [|i p IH]; intros n; simpl; [done|].
  intros [? H]. split; [done|]. destruct (children n !! i); [by apply IH | done].
Qed.

Lemma node_at_append_new c p : ∀ n m,
  node_at n p = Some m →
  node_at (update_at (add_children [Node_init c]) p n) (p ++ [length (children m)])
  = Some (Node_init c).
Proof.
  intros n m Hm. rewrite node_at_app, (node_at_update_at _ _ _ _ Hm). simpl.
  by rewrite lookup_app_r, Nat.sub_diag.
Qed.

Lemma node_at_append_old c r : ∀ p n m,
  node_at n r = Some m →
  ∃ m', node_at (update_at (add_children [Node_init c]) p n) r = Some m'
       ∧ text m' = text m.
Proof.
  induction r as [|j r IH]; intros p n m; simpl.
  - intros [= <-]. eexists. split; [done|]. by destruct p.
  - destruct (children n !! j) as [x|] eqn:Hx; [|done]. intros Hm.
    destruct p as [|i p]; simpl.
    + rewrite (lookup_app_l_Some _ _ _ _ Hx). eauto.
    + destruct (decide (i = j)) as [->|Hne].
      * rewrite list_lookup_alter_eq, Hx. simpl. by apply IH.
      * rewrite list_lookup_alter_ne, Hx by done. eauto.
Qed.

Lemma on_spine_append c p : ∀ n m,
  on_spine n p → node_at n p = Some m →
  on_spine (update_at (add_children [Node_init c]) p n) (p ++ [length (children m)]).
Proof.
  induction p as [|i p IH]; intros n m; simpl.
  - intros _ [= <-]. rewrite length_app. simpl.
    split; [lia|]. by rewrite lookup_app_r, Nat.sub_diag.
  - intros [Hi Hsp] Hm. rewrite length_alter. split; [done|].
    rewrite list_lookup_alter_eq.
    destruct (children n !! i) as [x|]; [|done]. simpl. by apply IH.
Qed.

Lemma preorder_append_spine c p : ∀ n m,
  on_spine n p → node_at n p = Some m →
  preorder (update_at (add_children [Node_init c]) p n) = preorder n ++ [p ++ [length (children m)]].
Proof.
  induction p as [|i p IH]; intros n m; simpl.
  - intros _ [= <-]. unfold preorder. destruct n as [t cs b]. simpl. f_equal.
    rewrite flat_imap_app. done.
  - intros [Hi Hsp] Hm.
    destruct (children n !! i) as [x|] eqn:Hx; [|done].
    destruct n as [t cs b]. simpl in *.
    set (F := λ (i : nat) (x : Node), cons i <$> positions false x).
    assert (cs = take i cs ++ [x]) as Hcs.
    { rewrite <- (take_drop_middle cs i x) at 1 by done.
      by rewrite drop_ge by lia. }
    assert (alter (update_at (add_children [Node_init c]) p) i cs = take i cs ++ [update_at (add_children [Node_init c]) p x])
      as Halter.
    { rewrite Hcs at 1.
      rewrite alter_app_r_alt by (rewrite length_take; lia).
      rewrite length_take_le by lia. by rewrite Nat.sub_diag. }
    assert (∀ y, flat_imap F 0 (take i cs ++ [y])
                 = flat_imap F 0 (take i cs) ++ (cons i <$> preorder y)) as Hflat.
    { intros y. rewrite flat_imap_app. simpl.
      rewrite length_take_le by lia. by rewrite app_nil_r. }
    unfold preorder. simpl. fold F. f_equal. fold preorder.
    rewrite Halter, Hflat, (IH x m Hsp Hm).
    transitivity (flat_imap F 0 (take i cs ++ [x]) ++ [i :: p ++ [length (children m)]]);
      [|by rewrite <- Hcs].
    by rewrite Hflat, fmap_app, app_assoc.
Qed.


(** ** The stack of the importer *)

Lemma stack_ok_top lvs refs j st :
  stack_ok lvs refs j st →
  ∃ L r st', st = (L, r) :: st' ∧ lvs !! j = Some L ∧ refs !! j = Some r.
Proof. destruct 1; eauto 10. Qed.

Lemma stack_ok_mono lvs refs j st l1 l2 :
  stack_ok lvs refs j st → stack_ok (lvs ++ l1) (refs ++ l2) j st.
Proof.
  induction 1 as [|i j L Lp rp k st _ IH Hij HL Hr HLp Hgap].
  - constructor; by apply lookup_app_l_Some.
  - econstructor; eauto using lookup_app_l_Some.
    intros i' H1 H2. destruct (Hgap i' H1 H2) as (L' & ? & ?).
    eauto using lookup_app_l_Some.
Qed.

Lemma stack_ok_pop lvs refs j st L n :
  stack_ok lvs refs j st → 1 ≤ L → j < n →
  (∀ i', j < i' → i' < n → ∃ L', lvs !! i' = Some L' ∧ L ≤ L') →
  ∃ i Lp rp st' q,
    pop_while L st = (Lp, rp) :: st' ∧
    stack_ok lvs refs i ((Lp, rp) :: st') ∧
    i ≤ j ∧ Lp < L ∧
    (∀ r, refs !! j = Some r → r = rp ++ q) ∧
    (∀ i', i < i' → i' < n → ∃ L', lvs !! i' = Some L' ∧ L ≤ L').
Proof.
  intros Hok HL. revert n.
  induction Hok as [H0 Hr0|i j Lt Lp rp k st Hok IH Hij HLt Hr HLp Hgap];
    intros n Hjn Hn.
  - exists 0, 0, [], [], []. simpl.
    destruct (decide (L ≤ 0)); [lia|].
    split_and!; [done|by constructor|done|lia| |done].
    intros r. rewrite Hr0. by intros [= <-].
  - simpl. destruct (decide (L ≤ Lt)) as [Hle|Hgt].
    + destruct (IH n) as (i0 & Lp0 & rp0 & st0 & q & Hpop & Hok0 & Hi0 & HLp0
                          & Hpre & Hgap0); [lia| |].
      { intros i' H1 H2.
        destruct (decide (i' < j)) as [|Hge]; [|].
        - destruct (Hgap i' H1 ltac:(done)) as (L' & ? & ?).
          exists L'. split; [done|lia].
        - destruct (decide (i' = j)) as [->|]; [eauto|].
          apply Hn; lia. }
      exists i0, Lp0, rp0, st0, (q ++ [k]).
      split_and!; [done|done|lia|done| |done].
      intros r. rewrite Hr. intros [= <-].
      destruct (stack_ok_top _ _ _ _ Hok) as (? & ? & ? & [= <- <- <-] & _ & Hrp).
      rewrite (Hpre _ Hrp). by rewrite app_assoc.
    + exists j, Lt, (rp ++ [k]), ((Lp, rp) :: st), [].
      split_and!; [done|by econstructor|done|lia| |done].
      intros r. rewrite Hr. intros [= <-]. by rewrite app_nil_r.
Qed.

Lemma nearest_smaller_mono lvs refs j l1 l2 :
  nearest_smaller lvs refs j → nearest_smaller (lvs ++ l1) (refs ++ l2) j.
Proof.
  intros (i & L & Li & r & par & Hij & HL & HLi & Hlt & Hr & Hpar & Hi & Hgap).
  exists i, L, Li, r, par. split_and!; eauto using lookup_app_l_Some.
  intros i' H1 H2. destruct (Hgap i' H1 H2) as (L' & ? & ?).
  eauto using lookup_app_l_Some.
Qed.

Lemma import_inv_init name :
  import_inv [] (Node_init name, [(0, [])]).
Proof.
  unfold import_inv. simpl. split_and!; [done|by constructor| |done|].
  - by intros L r st' [= <- <- <-].
  - intros j ??. lia.
Qed.

Lemma import_inv_attach hs st h :
  import_inv hs st → 1 ≤ h.1 →
  ∃ st', attach h st = Ok st' ∧ import_inv (hs ++ [h]) st'.
Proof.
  destruct st as [root stack], h as [L c]. unfold import_inv. simpl.
  intros (Hlen & Hok & Hspine & Htexts & Hnear) HL.
  set (lvs := 0 :: hs.*1) in *. set (refs := preorder root) in *.
  assert (length lvs = S (length hs)) as Hlvs
    by (unfold lvs; simpl; by rewrite length_fmap).
  destruct (stack_ok_top _ _ _ _ Hok) as (Lt & rt & st0 & -> & HLt & Hrt).
  destruct (stack_ok_pop lvs refs (length hs) _ L (S (length hs)) Hok HL)
    as (i & Lp & rp & st' & q & Hpop & Hok' & Hi & HLp & Hpre & Hgap);
    [lia | intros; lia |].
  specialize (Hpre _ Hrt). subst rt.
  assert (on_spine root rp) as Hsp by (eapply on_spine_prefix, Hspine; done).
  destruct (on_spine_valid _ _ Hsp) as [m Hm].
  destruct (stack_ok_top _ _ _ _ Hok') as (? & ? & ? & [= <- <- <-] & HLi & Hri).
  set (new := rp ++ [length (children m)]).
  set (tree := update_at (add_children [Node_init c]) rp root).
  exists (tree, (L, new) :: (Lp, rp) :: st'). split.
  { unfold attach. cbn [fst snd]. rewrite Hpop. simpl. unfold append_child.
    by rewrite (deref_node_at _ _ _ Hm). }
  assert (length refs = S (length hs)) as Hrefs
    by (by rewrite Hlen, length_fmap).
  cbn [fst snd]. rewrite !fmap_app. cbn [fmap list_fmap fst snd].
  change (0 :: hs.*1 ++ [L]) with (lvs ++ [L]).
  assert (preorder tree = refs ++ [new]) as -> by (by apply preorder_append_spine).
  rewrite !length_app. cbn [length]. rewrite !Nat.add_1_r.
  assert ((lvs ++ [L]) !! S (length hs) = Some L) as HnewL.
  { rewrite lookup_app_r by lia. by replace (S (length hs) - length lvs) with 0 by lia. }
  assert ((refs ++ [new]) !! S (length hs) = Some new) as Hnewr.
  { rewrite lookup_app_r by lia. by replace (S (length hs) - length refs) with 0 by lia. }
  assert (∀ i', i < i' → i' < S (length hs) →
                ∃ L', (lvs ++ [L]) !! i' = Some L' ∧ L ≤ L') as Hgap'.
  { intros i' H1 H2. destruct (Hgap i' H1 H2) as (L' & ? & ?).
    eauto using lookup_app_l_Some. }
  split_and!.
  - lia.
  - eapply stack_ok_push; eauto using stack_ok_mono. lia.
  - intros ? ? ? [= <- <- <-]. by apply on_spine_append.
  - destruct (preorder_head root) as [l Hl]. fold refs in Hl.
    rewrite Hl in Htexts |- *. simpl in *. rewrite fmap_app. simpl. f_equal.
    + rewrite <- Htexts. apply list_fmap_ext. intros k r Hr.
      assert (r ∈ refs) as Hin.
      { rewrite Hl. right. by eapply list_elem_of_lookup_2. }
      apply elem_of_positions in Hin as [[x Hx] _].
      destruct (node_at_append_old c r rp root x Hx) as (x' & Hx' & Htx).
      fold tree in Hx'.
      by rewrite (deref_node_at _ _ _ Hx), (deref_node_at _ _ _ Hx').
    + f_equal. unfold tree, new.
      by rewrite (deref_node_at _ _ _ (node_at_append_new c rp root m Hm)).
  - intros j Hj1 Hj2. destruct (decide (j ≤ length hs)) as [Hle|Hgt].
    + by apply nearest_smaller_mono, Hnear.
    + assert (j = S (length hs)) as -> by lia.
      exists i, L, Lp, new, rp.
      split_and!; eauto using lookup_app_l_Some; [lia|].
      unfold new, parent. rewrite removelast_last. by destruct rp.
Qed.

Lemma import_inv_attach_all hs' : ∀ hs st,
  import_inv hs st → Forall (λ h, 1 ≤ h.1) hs' →
  ∃ st', attach_all hs' st = Ok st' ∧ import_inv (hs ++ hs') st'.
Proof.
  induction hs' as [|h hs' IH]; intros hs st Hinv Hall; simpl.
  - exists st. by rewrite app_nil_r.
  - apply Forall_cons in Hall as [Hh Hall].
    destruct (import_inv_attach hs st h Hinv Hh) as (st1 & -> & Hinv1). simpl.
    destruct (IH _ _ Hinv1 Hall) as (st' & ? & Hinv'). exists st'.
    split; [done|]. by rewrite <- app_assoc in Hinv'.
Qed.

Lemma headings_levels tokens :
  heading_wf tokens → Forall (λ h, 1 ≤ h.1) (headings tokens).
Proof.
  intros Hwf.
  assert (∀ token, token ∈ tokens → type token = "heading_open" →
                   1 ≤ token_level token) as Hlev.
  { intros token [i Hi]%list_elem_of_lookup_1 Htype.
    destruct (Hwf i token Hi Htype) as ((c & Hc & ? & ?) & _).
    unfold token_level. rewrite Hc. lia. }
  clear Hwf. induction tokens as [|token rest IH]; simpl; [constructor|].
  assert (Forall (λ h, 1 ≤ h.1) (headings rest)) as Hrest.
  { apply IH. intros t Ht. apply Hlev. by right. }
  destruct (decide (type token = "heading_open")); [|done].
  constructor; [|done]. simpl. apply Hlev; [left|done].
Qed.

Lemma parse_md_attach_all `{MarkdownIt} md_text name :
  heading_wf (md_parse md_text) →
  parse_md md_text name
  = st ← attach_all (headings (md_parse md_text))
         (Node_init (basename name), [(0, [])]);
    Ok st.1.
Proof. intros Hwf. unfold parse_md. by apply parse_loop_attach_all. Qed.

(** C3 — Importer nesting: on a document whose heading tokens are as the
    tokenizer makes them, [parse_md] returns, and what it returns is what
    the loop [attach_all] builds from the headings in order, starting from
    the stack [[(0, root)]]: for a heading of level [L], [attach] pops
    while the top level is at least [L], appends the new node to the
    children of the node then on top and pushes [(L, new node)].  In the
    tree returned, the nodes below the root, taken in document order, are
    the headings in order, with their texts; and the parent of the node of
    heading [j] is the node of the nearest earlier heading whose level is
    strictly smaller, all headings between the two having levels at least
    that of [j] — or the root when no earlier heading has a smaller
    level.  Levels need not be consecutive. *)
Theorem parse_md_nesting `{MarkdownIt} (md_text name : string) :
  heading_wf (md_parse md_text) →
  let hs := headings (md_parse md_text) in
  ∃ root,
    parse_md md_text name = Ok root ∧
    (st ← attach_all hs (Node_init (basename name), [(0, [])]); Ok st.1)
    = Ok root ∧
    let refs := tail (preorder root) in
    length refs = length hs ∧
    ∀ j L c r, hs !! j = Some (L, c) → refs !! j = Some r →
      text (deref root r) = c ∧
      ∃ par, parent r = Some par ∧
        ((par = [] ∧
          ∀ i Li ci, i < j → hs !! i = Some (Li, ci) → L ≤ Li) ∨
         (∃ i Li ci,
            i < j ∧ hs !! i = Some (Li, ci) ∧ Li < L ∧ refs !! i = Some par ∧
            ∀ i' Li' ci', i < i' → i' < j → hs !! i' = Some (Li', ci') →
                          L ≤ Li')).
Proof.
  intros Hwf hs.
  destruct (import_inv_attach_all hs [] _ (import_inv_init (basename name))
              (headings_levels _ Hwf))
    as ([root stack] & Hall & Hlen & _ & _ & Htexts & Hnear).
  simpl in *. exists root.
  rewrite parse_md_attach_all by done. fold hs. rewrite Hall. simpl.
  split; [done|]. split; [done|].
  destruct (preorder_head root) as [refs Hrefs]. rewrite Hrefs in *.
  simpl in *. rewrite length_fmap in Hlen. split; [lia|].
  intros j L c r Hj Hr.
  assert (hs.*1 !! j = Some L) as HjL by (by rewrite list_lookup_fmap, Hj).
  split.
  { apply (f_equal (λ l, l !! j)) in Htexts.
    rewrite !list_lookup_fmap, Hr, Hj in Htexts. simpl in Htexts. congruence. }
  apply lookup_lt_Some in Hj as Hjlt.
  destruct (Hnear (S j)) as (i & L' & Li & r' & par & Hij & HL' & HLi & Hlt
                             & Hr' & Hpar & Hi & Hgap); [lia..|].
  simpl in HL', Hr'. assert (L' = L) as -> by congruence.
  assert (r' = r) as -> by congruence.
  exists par. split; [done|].
  destruct i as [|i]; simpl in HLi, Hi.
  - left. injection Hi as <-. split; [done|].
    intros i Li' ci Hlt' Hi'.
    destruct (Hgap (S i)) as (L'' & HL'' & ?); [lia..|].
    simpl in HL''. rewrite list_lookup_fmap, Hi' in HL''. simpl in HL''.
    injection HL'' as <-. done.
  - right. rewrite list_lookup_fmap in HLi.
    destruct (hs !! i) as [[Li' ci]|] eqn:Hhi; [|done].
    simpl in HLi. injection HLi as ->.
    exists i, Li, ci. split_and!; [lia|done..|].
    intros i' Li' ci' H1 H2 Hi'.
    destruct (Hgap (S i')) as (L'' & HL'' & ?); [lia..|].
    simpl in HL''. rewrite list_lookup_fmap, Hi' in HL''. simpl in HL''.
    injection HL'' as <-. done.
Qed.

(** ** Reading back what was written *)

Lemma to_markdown_outline n : ∀ level,
  0 < level →
  to_markdown n level = (λ h, heading_line h.1 h.2) <$> outline level n.
Proof.
  induction n as [t cs c IH] using Node_ind'. intros level Hlevel.
  rewrite to_markdown_unfold. simpl.
  destruct (decide (0 < level)) as [_|]; [|lia]. simpl. f_equal.
  rewrite Nat.add_1_r.
  induction IH as [|x cs Hx _ IHcs]; simpl; [done|].
  rewrite fmap_app, Hx by lia. by rewrite IHcs.
Qed.

Lemma to_markdown_root_outline root :
  to_markdown root 0
  = (λ h, heading_line h.1 h.2) <$> (children root ≫= outline 1).
Proof.
  rewrite to_markdown_unfold. simpl.
  induction (children root) as [|x cs IH]; simpl; [done|].
  rewrite fmap_app, to_markdown_outline by lia. by rewrite IH.
Qed.

Lemma update_at_app f p q n :
  update_at f (p ++ q) n = update_at (update_at f q) p n.
Proof.
  revert n. induction p as [|i p IH]; intros n; simpl; [done|]. f_equal.
  apply list_alter_ext; [|done]. intros x _. apply IH.
Qed.

Lemma update_at_ext_at f g p : ∀ n m,
  node_at n p = Some m → f m = g m → update_at f p n = update_at g p n.
Proof.
  induction p as [|i p IH]; intros n m; simpl.
  - by intros [= ->].
  - destruct (children n !! i) as [x|] eqn:Hx; [|done]. intros Hm Hfg.
    f_equal. apply list_alter_ext; [|done].
    intros y Hy. assert (y = x) as -> by congruence. by eapply IH.
Qed.

Lemma attach_all_app hs1 hs2 st :
  attach_all (hs1 ++ hs2) st = st' ← attach_all hs1 st; attach_all hs2 st'.
Proof.
  revert st. induction hs1 as [|h hs1 IH]; intros st; simpl; [done|].
  destruct (attach h st) as [st1|]; simpl; [apply IH | done].
Qed.

Lemma pop_while_junk level junk stack :
  Forall (λ e, level ≤ e.1) junk →
  pop_while level (junk ++ stack) = pop_while level stack.
Proof.
  induction 1 as [|[l r] junk Hle _ IH]; simpl; [done|].
  simpl in Hle. by destruct (decide (level ≤ l)).
Qed.

Lemma bind_Ok {A B} (a : A) (k : A → Result B) : (x ← Ok a; k x) = k a.
Proof. done. Qed.

Lemma add_children_nil x : add_children [] x = x.
Proof. destruct x. unfold add_children, set_children. simpl. by rewrite app_nil_r. Qed.

Lemma add_children_cons c cs x :
  add_children cs (add_children [c] x) = add_children (c :: cs) x.
Proof.
  destruct x. unfold add_children, set_children. simpl. by rewrite <- app_assoc.
Qed.

(** Attaching the headings of a forest written at [level], below a node
    [p] of smaller level [lp] that the stack still holds, appends the
    forest, flags cleared, to the children of [p]. *)
Lemma rebuild_forest cs :
  Forall (λ n, ∀ level root junk lp p rest m,
            lp < level → node_at root p = Some m →
            Forall (λ e : nat * list nat, level ≤ e.1) junk →
            ∃ junk',
              attach_all (outline level n) (root, junk ++ (lp, p) :: rest)
              = Ok (update_at (add_children [uncollapse n]) p root,
                    junk' ++ (lp, p) :: rest)
              ∧ Forall (λ e : nat * list nat, level ≤ e.1) junk') cs →
  ∀ level root junk lp p rest m,
    lp < level → node_at root p = Some m →
    Forall (λ e : nat * list nat, level ≤ e.1) junk →
    ∃ junk',
      attach_all (cs ≫= outline level) (root, junk ++ (lp, p) :: rest)
      = Ok (update_at (add_children (uncollapse <$> cs)) p root,
            junk' ++ (lp, p) :: rest)
      ∧ Forall (λ e : nat * list nat, level ≤ e.1) junk'.
Proof.
  induction 1 as [|x cs Hx _ IH]; intros level root junk lp p rest m Hlp Hm Hjunk.
  - exists junk. simpl. split; [|done].
    by rewrite (update_at_id _ _ _ add_children_nil).
  - rewrite bind_cons, fmap_cons, attach_all_app.
    destruct (Hx level root junk lp p rest m Hlp Hm Hjunk) as (junk1 & -> & Hjunk1).
    rewrite bind_Ok.
    destruct (IH level _ junk1 lp p rest _ Hlp
                (node_at_update_at (add_children [uncollapse x]) _ _ _ Hm)
                Hjunk1) as (junk2 & -> & Hjunk2).
    exists junk2. split; [|done]. do 2 f_equal.
    rewrite update_at_compose. apply update_at_ext. intros y. simpl.
    apply add_children_cons.
Qed.

Lemma rebuild_node n : ∀ level root junk lp p rest m,
  lp < level → node_at root p = Some m →
  Forall (λ e : nat * list nat, level ≤ e.1) junk →
  ∃ junk',
    attach_all (outline level n) (root, junk ++ (lp, p) :: rest)
    = Ok (update_at (add_children [uncollapse n]) p root,
          junk' ++ (lp, p) :: rest)
    ∧ Forall (λ e : nat * list nat, level ≤ e.1) junk'.
Proof.
  induction n as [t cs c IH] using Node_ind'.
  intros level root junk lp p rest m Hlp Hm Hjunk.
  set (k := length (children m)).
  set (root1 := update_at (add_children [Node_init t]) p root).
  assert (attach (level, t) (root, junk ++ (lp, p) :: rest)
          = Ok (root1, (level, p ++ [k]) :: (lp, p) :: rest)) as Hattach.
  { unfold attach. cbn [fst snd]. rewrite pop_while_junk by done. simpl.
    destruct (decide (level ≤ lp)); [lia|]. simpl. unfold append_child.
    by rewrite (deref_node_at _ _ _ Hm). }
  destruct (rebuild_forest cs IH (S level) root1 [] level (p ++ [k])
              ((lp, p) :: rest) (Node_init t))
    as (junk' & Hforest & Hjunk'); [lia| |constructor|].
  { apply (node_at_append_new t p root m Hm). }
  exists (junk' ++ [(level, p ++ [k])]). split.
  - cbn [outline text children]. cbn [attach_all]. rewrite Hattach. simpl.
    simpl in Hforest. rewrite Hforest. rewrite <- app_assoc. simpl.
    do 2 f_equal. unfold root1.
    rewrite update_at_app, update_at_compose.
    apply (update_at_ext_at _ _ p root m Hm).
    destruct m as [tm csm cm]. unfold add_children, set_children. simpl.
    f_equal. subst k. simpl.
    rewrite alter_app_r_alt by done. by rewrite Nat.sub_diag.
  - apply Forall_app. split.
    + eapply Forall_impl; [exact Hjunk'|]. simpl. intros; lia.
    + by constructor.
Qed.

(** ** The tokenizer model on exported documents *)

Lemma chars_append s1 s2 :
  list_ascii_of_string (s1 +:+ s2)
  = list_ascii_of_string s1 ++ list_ascii_of_string s2.
Proof. induction s1 as [|c s1 IH]; simpl; [done|]. by rewrite IH. Qed.

Lemma chars_str_mul n :
  list_ascii_of_string (str_mul "#" n) = replicate n "#"%char.
Proof.
  induction n as [|n IH]; [done|]. cbn [str_mul replicate].
  by rewrite chars_append, IH.
Qed.

Lemma chars_heading_line L t :
  list_ascii_of_string (heading_line L t)
  = replicate L "#"%char ++ " "%char :: list_ascii_of_string t.
Proof. unfold heading_line. by rewrite !chars_append, chars_str_mul. Qed.

Lemma chars_concat ls :
  list_ascii_of_string (String.concat newline ls)
  = join_lines (list_ascii_of_string <$> ls).
Proof.
  induction ls as [|l ls IH]; simpl; [done|].
  destruct ls as [|l' ls]; [done|].
  rewrite !chars_append, IH. done.
Qed.

Lemma split_lines_no_nl l :
  Forall (λ c, c ≠ ascii_of_nat 10) l → split_lines l = [l].
Proof.
  induction 1 as [|c l Hc _ IH]; simpl; [done|].
  destruct (decide (c = ascii_of_nat 10)); [done|]. by rewrite IH.
Qed.

Lemma split_lines_app_nl l s :
  Forall (λ c, c ≠ ascii_of_nat 10) l →
  split_lines (l ++ ascii_of_nat 10 :: s) = l :: split_lines s.
Proof.
  induction 1 as [|c l Hc _ IH]; simpl.
  - by destruct (decide (ascii_of_nat 10 = ascii_of_nat 10)).
  - destruct (decide (c = ascii_of_nat 10)); [done|]. by rewrite IH.
Qed.

Lemma split_lines_join ls :
  ls ≠ [] → Forall (Forall (λ c, c ≠ ascii_of_nat 10)) ls →
  split_lines (join_lines ls) = ls.
Proof.
  intros Hne Hall. induction Hall as [|l ls Hl Hls IH]; [done|].
  destruct ls as [|l' ls]; simpl.
  - by apply split_lines_no_nl.
  - rewrite split_lines_app_nl by done. f_equal. by apply IH.
Qed.

Lemma lstrip_hashes L tl :
  lstrip is_hash (replicate L "#"%char ++ " "%char :: tl) = " "%char :: tl.
Proof. induction L as [|L IH]; simpl; [done|]. exact IH. Qed.

Lemma rstrip_last f l z :
  last l = Some z → f z = false → rstrip f l = l.
Proof.
  intros Hlast Hz. unfold rstrip.
  destruct (last_Some l z) as [(l' & ->) _]; [done|].
  rewrite rev_app_distr. simpl. rewrite Hz. simpl.
  by rewrite rev_involutive.
Qed.

Lemma printable_not_space c :
  printable c = true → isStrSpace c = false ∧ py_isspace c = false.
Proof.
  unfold printable, isStrSpace, py_isspace.
  intros H%bool_decide_eq_true. split; apply bool_decide_eq_false; lia.
Qed.

Lemma plain_text_inv t :
  plain_text t = true →
  ∃ a l z,
    list_ascii_of_string t = a :: l ∧
    last (a :: l) = Some z ∧
    printable a = true ∧ printable z = true ∧ is_hash z = false ∧
    Forall (λ c, c ≠ ascii_of_nat 10) (a :: l).
Proof.
  unfold plain_text. destruct (list_ascii_of_string t) as [|a l]; [done|].
  destruct (last (a :: l)) as [z|] eqn:Hlast; [|done].
  intros H. apply andb_prop in H as [H Hsafe].
  apply andb_prop in H as [H Hz]. apply andb_prop in H as [Ha Hpz].
  exists a, l, z. split_and!; [done..|by apply negb_true_iff|].
  pose proof (proj1 (List.forallb_forall _ _) Hsafe) as Hall.
  apply Forall_forall. intros c Hc ->.
  apply list_elem_of_In, Hall in Hc. by vm_compute in Hc.
Qed.

Lemma heading_content_plain t :
  plain_text t = true →
  heading_content (" "%char :: list_ascii_of_string t) = list_ascii_of_string t.
Proof.
  intros (a & l & z & -> & Hlast & Ha & Hz & Hhash & _)%plain_text_inv.
  destruct (printable_not_space a Ha) as [_ Ha'].
  destruct (printable_not_space z Hz) as [Hz1 Hz2].
  assert (last (" "%char :: a :: l) = Some z) as Hlast' by done.
  unfold heading_content.
  rewrite (rstrip_last isStrSpace _ z) by done.
  rewrite (rstrip_last is_hash _ z) by done.
  rewrite Hlast', Hz1. unfold py_strip. simpl lstrip. rewrite Ha'.
  by apply (rstrip_last _ _ z).
Qed.

Lemma atx_heading_line L t :
  1 ≤ L → L ≤ 6 → plain_text t = true →
  atx_heading (list_ascii_of_string (heading_line L t))
  = Some (L, list_ascii_of_string t).
Proof.
  intros H1 H6 Ht. unfold atx_heading.
  rewrite chars_heading_line, lstrip_hashes.
  rewrite length_app, length_replicate. simpl length.
  replace (L + S (length (list_ascii_of_string t))
           - S (length (list_ascii_of_string t))) with L by lia.
  rewrite drop_app_length' by (by rewrite length_replicate).
  destruct (decide (1 ≤ L ∧ L ≤ 6)) as [_|]; [|lia].
  change (isStrSpace " ") with true. cbv iota.
  by rewrite heading_content_plain.
Qed.

Lemma heading_line_no_nl L t :
  plain_text t = true →
  Forall (λ c, c ≠ ascii_of_nat 10) (list_ascii_of_string (heading_line L t)).
Proof.
  intros (a & l & z & Ht & _ & _ & _ & _ & Hsafe)%plain_text_inv.
  rewrite chars_heading_line, Ht. apply Forall_app. split.
  - apply Forall_forall. intros c [-> _]%elem_of_replicate. done.
  - by constructor.
Qed.

Lemma block_tokens_headings (hs : list (nat * string)) :
  Forall (λ h, 1 ≤ h.1 ∧ h.1 ≤ 6 ∧ plain_text h.2 = true) hs →
  block_tokens ((λ h, list_ascii_of_string (heading_line h.1 h.2)) <$> hs) []
  = hs ≫= (λ h, heading_tokens h.1 h.2).
Proof.
  induction 1 as [|[L t] hs (H1 & H6 & Ht) _ IH]; [done|].
  rewrite fmap_cons, bind_cons. cbn [block_tokens fst snd].
  rewrite atx_heading_line by done. rewrite IH.
  by rewrite string_of_list_ascii_of_string.
Qed.

Lemma markdown_it_tokenizes_exports : tokenizes_exports markdown_it.
Proof.
  intros hs Hall. unfold md_parse, markdown_it.
  rewrite chars_concat, <- list_fmap_compose.
  destruct hs as [|h hs]; [done|].
  rewrite split_lines_join.
  - by apply (block_tokens_headings (h :: hs)).
  - done.
  - apply Forall_fmap. eapply Forall_impl; [exact Hall|].
    intros [L t] (_ & _ & Ht). by apply heading_line_no_nl.
Qed.

Lemma heading_tag_get L :
  String.get 1 (heading_tag L) = Some (ascii_of_nat (48 + L)).
Proof. reflexivity. Qed.

Lemma token_level_heading_tag L c :
  L ≤ 9 → token_level (mkToken "heading_open" (heading_tag L) c) = L.
Proof.
  intros HL. unfold token_level. cbn [tag]. rewrite heading_tag_get.
  rewrite nat_ascii_embedding by lia. lia.
Qed.

Lemma headings_heading_tokens (hs : list (nat * string)) :
  Forall (λ h, h.1 ≤ 9) hs →
  headings (hs ≫= (λ h, heading_tokens h.1 h.2)) = hs.
Proof.
  induction 1 as [|[L t] hs HL _ IH]; [done|].
  rewrite bind_cons. cbn [heading_tokens fst snd app headings type content].
  destruct (decide ("heading_open" = "heading_open")) as [_|]; [|done].
  destruct (decide ("inline" = "heading_open")) as [|_]; [done|].
  destruct (decide ("heading_close" = "heading_open")) as [|_]; [done|].
  rewrite IH. by rewrite token_level_heading_tag.
Qed.

Lemma heading_wf_heading_tokens (hs : list (nat * string)) :
  Forall (λ h, 1 ≤ h.1 ∧ h.1 ≤ 9) hs →
  heading_wf (hs ≫= (λ h, heading_tokens h.1 h.2)).
Proof.
  induction 1 as [|[L t] hs [H1 H9] _ IH]; [by intros i token|].
  rewrite bind_cons. simpl. intros [|[|[|i]]] token; simpl.
  - intros [= <-] _. split; [|eauto].
    simpl in H1, H9.
    exists (ascii_of_nat (48 + L)). cbn [tag]. rewrite heading_tag_get.
    rewrite nat_ascii_embedding by lia. split_and!; [done|lia..].
  - by intros [= <-].
  - by intros [= <-].
  - intros Hi Htype. destruct (IH i token Hi Htype) as [? ?]. done.
Qed.

Lemma exportable_outline n : ∀ level,
  1 ≤ level → exportable level n = true →
  Forall (λ h, 1 ≤ h.1 ∧ h.1 ≤ 6 ∧ plain_text h.2 = true) (outline level n).
Proof.
  induction n as [t cs c IH] using Node_ind'. intros level Hlevel Hexp.
  simpl in Hexp. apply andb_prop in Hexp as [Hexp Hcs].
  apply andb_prop in Hexp as [H6%bool_decide_eq_true Ht].
  cbn [outline text children]. constructor; [done|].
  pose proof (proj1 (List.forallb_forall _ _) Hcs) as Hall. clear Hcs.
  induction IH as [|x cs Hx _ IHcs]; [constructor|].
  rewrite bind_cons. apply Forall_app. split.
  - apply Hx; [lia|]. apply Hall. by left.
  - apply IHcs. intros y Hy. apply Hall. by right.
Qed.


(** What the loop of [parse_md] makes of the headings a tree was written
    as: the children of the tree, flags cleared, under a fresh root. *)
Lemma attach_all_outline root name :
  ∃ stack,
    attach_all (children root ≫= outline 1) (Node_init name, [(0, [])])
    = Ok (mkNode name (uncollapse <$> children root) false, stack).
Proof.
  destruct (rebuild_forest (children root)) with
    (level := 1) (root := Node_init name) (junk := @nil (nat * list nat))
    (lp := 0) (p := @nil nat) (rest := @nil (nat * list nat))
    (m := Node_init name) as (junk' & Heq & _); [|lia|done|constructor|].
  - apply Forall_forall. intros n _. apply rebuild_node.
  - eexists. exact Heq.
Qed.


Lemma same_structure_children l1 l2 :
  Forall2 same_structure l1 l2 → uncollapse <$> l1 = uncollapse <$> l2.
Proof.
  induction 1 as [|a b l1 l2 Hab _ IH]; [done|].
  rewrite !fmap_cons. unfold same_structure in Hab. by rewrite Hab, IH.
Qed.


(** It also fails on a text the heading rule does not give back: a text
    ending in a space loses the space. *)
Lemma roundtrip_fails_on_trailing_space :
  ∃ s r,
    run [key_tab; typed "x "; key_enter] fresh_session = Ok s ∧
    Forall (λ h, h.2 ≠ "") (children (root (state s)) ≫= outline 1) ∧
    @parse_md markdown_it
      (String.concat newline (to_markdown (root (state s)) 0)) "mindmap.md"
    = Ok r ∧
    ¬ Forall2 same_structure (children r) (children (root (state s))).
Proof.
  eexists _, _. split; [vm_compute; reflexivity|].
  split; [vm_compute; repeat constructor; discriminate|].
  split; [vm_compute; reflexivity|].
  intros H%same_structure_children.
  apply (f_equal (λ l, (l ≫= outline 1).*2)) in H.
  vm_compute in H. discriminate.
Qed.


(** ** Scenarios *)

Lemma heading_wfb_correct tokens :
  heading_wfb tokens = true → heading_wf tokens.
Proof.
  induction tokens as [|token rest IH]; [by intros _ i t|]. simpl.
  intros [Hhead Hrest]%andb_prop i t Hi Htype.
  destruct i as [|i]; simpl in Hi.
  - injection Hi as ->. destruct (decide (type t = "heading_open")); [|done].
    destruct (String.get 1 (tag t)) as [c|]; [|done].
    destruct rest as [|next rest]; [done|].
    apply bool_decide_eq_true in Hhead. split; [|by eexists].
    exists c. split_and!; [done|lia..].
  - apply (IH Hrest i t Hi Htype).
Qed.

(** The document of the first scenario imports to [A] (with [B], and [C]
    holding [D]) and [E], and exports to its five heading lines. *)
Example import_export_scenario :
  ∃ r,
    @parse_md markdown_it sample_doc "mindmap.md" = Ok r ∧
    children r = uncollapse <$> children sample_tree ∧
    to_markdown r 0 = ["# A"; "## B"; "## C"; "### D"; "# E"].
Proof. eexists. split; [vm_compute; reflexivity|]. split; reflexivity. Qed.

(** Insert child, commit [X], insert sibling, commit [Y], save. *)
Example insert_scenario :
  ∃ s,
    run [key_tab; typed "X"; key_enter; key_enter; typed "Y"; key_enter; key_s]
      fresh_session = Ok s ∧
    children (root (state s)) = [Node_init "X"; Node_init "Y"] ∧
    file s = Some ("# X" +:+ newline +:+ "# Y").
Proof. eexists. split; [vm_compute; reflexivity|]. split; reflexivity. Qed.

(** A level-3 heading right after a level-1 heading hangs under it. *)
Example level_jump :
  @parse_md markdown_it jump_doc "mindmap.md"
  = Ok (mkNode "mindmap.md" [mkNode "A" [Node_init "B"] false] false).
Proof. vm_compute. reflexivity. Qed.

(** * Instances *)

(** Importer nesting on [sample_doc], read with the tokenizer model. *)
Lemma parse_md_nesting_witness :
  heading_wf (@md_parse markdown_it sample_doc) ∧
  let hs := headings (@md_parse markdown_it sample_doc) in
  ∃ root,
    @parse_md markdown_it sample_doc "mindmap.md" = Ok root ∧
    (st ← attach_all hs (Node_init (basename "mindmap.md"), [(0, [])]); Ok st.1)
    = Ok root ∧
    let refs := tail (preorder root) in
    length refs = length hs ∧
    ∀ j L c r, hs !! j = Some (L, c) → refs !! j = Some r →
      text (deref root r) = c ∧
      ∃ par, parent r = Some par ∧
        ((par = [] ∧
          ∀ i Li ci, i < j → hs !! i = Some (Li, ci) → L ≤ Li) ∨
         (∃ i Li ci,
            i < j ∧ hs !! i = Some (Li, ci) ∧ Li < L ∧ refs !! i = Some par ∧
            ∀ i' Li' ci', i < i' → i' < j → hs !! i' = Some (Li', ci') →
                          L ≤ Li')).
Proof.
  split.
  - apply heading_wfb_correct. reflexivity.
  - apply (@parse_md_nesting markdown_it sample_doc "mindmap.md").
    apply heading_wfb_correct. reflexivity.
Defined.

(** Text entry opened by [tab] in the fresh session, then ["X"] typed. *)
Lemma text_entry_transitions_witness :
  is_editing (state fresh_session) = false ∧
  press key_tab fresh_session = Ok after_tab ∧
  is_editing (state after_tab) = true ∧
  ∃ target,
    entry_target key_tab fresh_session = Some target ∧
    get_selected_node (state after_tab) = Ok (state after_tab, target) ∧
    (∃ s2, run [typed "X"; key_enter] after_tab = Ok s2 ∧
           root (state s2)
           = update_at (set_text "X") target (root (state after_tab)) ∧
           text (deref (root (state s2)) target) = "X" ∧
           is_editing (state s2) = false ∧
           focus s2 = root_window) ∧
    (∃ s2, run [typed "X"; key_escape] after_tab = Ok s2 ∧
           root (state s2) = root (state after_tab) ∧
           is_editing (state s2) = false ∧
           focus s2 = root_window).
Proof.
  split; [reflexivity|]. split; [reflexivity|]. split; [reflexivity|].
  apply (text_entry_transitions fresh_session after_tab key_tab "X");
    reflexivity.
Defined.

(** The commands that do nothing, in the fresh session: the root is
    selected and has no children. *)
Lemma silent_noops_witness :
  get_selected_node (state fresh_session) = Ok (state fresh_session, []) ∧
  root (state fresh_session) = root (state fresh_session) ∧
  is_editing (state fresh_session) = is_editing (state fresh_session) ∧
  (parent [] = None →
     delete_node fresh_session
     = Ok (set_state (state fresh_session) fresh_session) ∧
     add_sibling_and_edit fresh_session
     = Ok (set_state (state fresh_session) fresh_session)) ∧
  (children (deref (root (state fresh_session)) []) = [] →
     toggle_collapse fresh_session
     = Ok (set_state (state fresh_session) fresh_session)).
Proof.
  split; [reflexivity|].
  apply (silent_noops fresh_session (state fresh_session) []). reflexivity.
Defined.

(** Toggling [A] of [sample_tree] twice. *)
Lemma toggle_collapse_count_witness :
  get_visible_nodes sample_tree !! 1 = Some [0] ∧
  selected_index (state (sample_session 1)) = Z.of_nat 1 ∧
  children (deref sample_tree [0]) ≠ [] ∧
  ∃ s1 s2,
    toggle_collapse (sample_session 1) = Ok s1 ∧
    toggle_collapse s1 = Ok s2 ∧
    root (state s1)
    = update_at (λ n, set_collapsed (negb (collapsed n)) n) [0] sample_tree ∧
    (if collapsed (deref sample_tree [0])
     then length (get_visible_nodes (root (state s1)))
          = length (get_visible_nodes sample_tree)
            + (length (get_visible_nodes
                         (set_collapsed false (deref sample_tree [0]))) - 1)
     else length (get_visible_nodes sample_tree)
          = length (get_visible_nodes (root (state s1)))
            + (length (get_visible_nodes
                         (set_collapsed false (deref sample_tree [0]))) - 1)) ∧
    root (state s2) = sample_tree ∧
    length (get_visible_nodes (root (state s2)))
    = length (get_visible_nodes sample_tree).
Proof.
  split; [reflexivity|]. split; [reflexivity|]. split; [discriminate|].
  apply (toggle_collapse_count (sample_session 1) 1 [0]);
    [reflexivity | reflexivity | discriminate].
Defined.

(** * Further properties *)

(** ** No command raises *)

Lemma press_ok (k : Key) (s : Session) : ∃ s', press k s = Ok s'.
Proof.
  destruct (get_selected_node_spec (state s)) as (sel & Hget & _).
  unfold press. destruct (is_editing (state s)).
  - destruct k; try by eexists.
    unfold finish_edit. rewrite Hget. by eexists.
  - destruct k; try by eexists.
    + destruct (rename_enters s) as (? & ? & ? & _ & -> & _). by eexists.
    + destruct (add_child_enters s) as (? & ? & ? & ? & ? & _ & _ & -> & _).
      by eexists.
    + destruct (parent sel) as [par|] eqn:Hpar.
      * destruct (add_sibling_enters s _ sel par Hget Hpar) as (? & ? & -> & _).
        by eexists.
      * unfold add_sibling_and_edit. rewrite Hget. simpl. rewrite Hpar.
        by eexists.
    + unfold delete_node. rewrite Hget. simpl. destruct (parent sel); by eexists.
    + unfold toggle_collapse. rewrite Hget. simpl. destruct (decide _); by eexists.
Qed.

Lemma get_ui_content_ok (s : Session) : ∃ s', get_ui_content s = Ok s'.
Proof.
  destruct (get_selected_node_spec (state s)) as (sel & Hget & _).
  unfold get_ui_content. rewrite Hget. by eexists.
Qed.


(** ** Reading the selection twice *)

(** X2 — Reading the selection is idempotent: a second call of
    [get_selected_node], on the state the first call leaves, returns the
    same node and changes nothing more. *)
Theorem get_selected_node_idempotent (st : AppState) :
  ('(st', _) ← get_selected_node st; get_selected_node st')
  = get_selected_node st.
Proof.
  destruct (get_selected_node_spec st) as (n & Hget & Hn).
  rewrite Hget. simpl.
  apply (get_selected_node_at _ (Z.to_nat (selected_index
           (set_selected_index
              (Z.max 0 (Z.min (selected_index st)
                 (Z.of_nat (length (get_visible_nodes (root st))) - 1))) st)))).
  - exact Hn.
  - simpl. lia.
Qed.

(** ** Cursor keys *)

Lemma move_step (k : Key) (s : Session) :
  is_editing (state s) = false → is_move k →
  ∃ s',
    (s1 ← press k s; get_ui_content s1) = Ok s' ∧
    root (state s') = root (state s) ∧
    is_editing (state s') = false ∧
    selected_index (state s')
    = step_index (length (get_visible_nodes (root (state s))))
        (selected_index (state s)) k.
Proof.
  intros Hnav Hk. unfold press. rewrite Hnav.
  destruct Hk as [-> | ->]; simpl; unfold get_ui_content; simpl.
  - destruct (get_selected_node_spec
                (set_selected_index (selected_index (state s) - 1) (state s)))
      as (n & -> & _). simpl. eexists. split; [done|]. by simpl.
  - destruct (get_selected_node_spec
                (set_selected_index (selected_index (state s) + 1) (state s)))
      as (n & -> & _). simpl. eexists. split; [done|]. by simpl.
Qed.

(** X3 — Cursor keys: in navigation mode any sequence of [up] and [down]
    keys, each followed by its repaint, leaves the tree and the mode as
    they are and moves the index one step per key, held inside the visible
    sequence: [down] on the last visible node and [up] on the root stay
    where they are.  After at least one key the index is in range. *)
Theorem cursor_keys (moves : list Key) (s : Session) :
  is_editing (state s) = false →
  Forall is_move moves →
  let len := length (get_visible_nodes (root (state s))) in
  ∃ s',
    run moves s = Ok s' ∧
    root (state s') = root (state s) ∧
    is_editing (state s') = false ∧
    selected_index (state s')
    = foldl (step_index len) (selected_index (state s)) moves ∧
    (moves ≠ [] →
     (0 ≤ selected_index (state s') ≤ Z.of_nat len - 1)%Z).
Proof.
  intros Hnav Hmoves len. subst len. revert s Hnav.
  induction Hmoves as [|k moves Hk _ IH]; intros s Hnav.
  - exists s. by split_and!.
  - destruct (move_step k s Hnav Hk) as (s1 & Hstep & Hroot & Hnav1 & Hidx).
    destruct (IH s1 Hnav1) as (s' & Hrun & Hroot' & Hnav' & Hidx' & _).
    exists s'. rewrite Hroot in *. split_and!.
    + cbn [run]. destruct (press k s) as [s0|]; [|done]. simpl in Hstep |- *.
      by rewrite Hstep.
    + congruence.
    + done.
    + simpl. by rewrite Hidx', Hidx.
    + intros _. rewrite Hidx', Hidx.
      pose proof (get_visible_nodes_nonempty (root (state s))) as Hlen.
      revert Hlen. clear.
      generalize (length (get_visible_nodes (root (state s)))). intros len Hlen.
      assert (∀ i k, 0 ≤ step_index len i k ≤ Z.of_nat len - 1)%Z as Hstep.
      { intros i k0. unfold step_index, clamp. lia. }
      generalize (Hstep (selected_index (state s)) k).
      generalize (step_index len (selected_index (state s)) k).
      induction moves as [|k' moves IHm]; intros i Hi; simpl; [done|].
      apply IHm, Hstep.
Qed.

(** ** What a key never does *)

(** X4 — What a key never does: no key changes the file name; only [s]
    writes the file or the status line; only [q] ends the session; and in
    text-entry mode no key, [s] and [q] included, saves or ends the
    session, only [enter] changes the tree or the index, and only [enter]
    and [escape] leave the mode. *)
Theorem press_frame (k : Key) (s : Session) :
  ∃ s',
  press k s = Ok s' ∧
  filename (state s') = filename (state s) ∧
  (k ≠ key_s →
   file s' = file s ∧ status_msg (state s') = status_msg (state s)) ∧
  (k ≠ key_q → exited s' = exited s) ∧
  (is_editing (state s) = true →
   file s' = file s ∧ status_msg (state s') = status_msg (state s) ∧
   exited s' = exited s ∧
   (k ≠ key_enter →
    root (state s') = root (state s) ∧
    selected_index (state s') = selected_index (state s) ∧
    (k ≠ key_escape → is_editing (state s') = true))).
Proof.
  destruct (press_ok k s) as [s' H]. exists s'. split; [exact H|].
  unfold press in H.
  destruct (get_selected_node_spec (state s)) as (sel & Hget & _).
  destruct (is_editing (state s)) eqn:Hed; destruct k; simpl in H;
    unfold finish_edit, cancel_edit, quit, move_up, move_down, rename,
      add_child_and_edit, add_sibling_and_edit, delete_node, save,
      toggle_collapse in H;
    rewrite ?Hget in H; simpl in H;
    repeat match type of H with
      | context [match parent ?r with _ => _ end] => destruct (parent r)
      | context [list_index ?x ?l] => destruct (list_index x l); simpl in H
      | context [decide ?P] => destruct (decide P)
      end;
    try discriminate H; injection H as <-; simpl;
    split_and!; intros; try done; split_and!; intros; try done;
    split_and!; intros; done.
Qed.

(** ** When the importer raises *)





Lemma text_update_at f r n :
  (∀ m, text (f m) = text m) → text (update_at f r n) = text n.
Proof. intros Hf. by destruct r. Qed.

Lemma parse_loop_text tokens todo : ∀ i root stack r,
  parse_loop tokens i todo root stack = Ok r → text r = text root.
Proof.
  induction todo as [|t todo IH]; intros i root stack r; simpl.
  - by intros [= <-].
  - destruct (decide (type t = "heading_open")); [|apply IH].
    destruct (parse_heading tokens i t root stack) as [[r1 s1]|] eqn:Hh; [|done].
    simpl. intros Hr%IH. rewrite Hr. clear Hr IH.
    unfold parse_heading in Hh.
    destruct (str_getitem (tag t) 1) as [c|]; [|done]. simpl in Hh.
    destruct (int_of_char c) as [level|]; [|done]. simpl in Hh.
    destruct (getitem tokens (Z.of_nat i + 1)) as [next|]; [|done]. simpl in Hh.
    destruct (stack_top (pop_while level stack)) as [[l par]|]; [|done].
    simpl in Hh. injection Hh as <- _. by apply text_update_at.
Qed.

Lemma parse_loop_no_heading tokens todo : ∀ i root stack,
  (∀ token, token ∈ todo → type token ≠ "heading_open") →
  parse_loop tokens i todo root stack = Ok root.
Proof.
  induction todo as [|t todo IH]; intros i root stack Hno; simpl; [done|].
  destruct (decide (type t = "heading_open")) as [Ht|_].
  - destruct (Hno t); [left|done].
  - apply IH. intros token Hin. apply Hno. by right.
Qed.

(** X6 — The root of an imported tree: whatever the document, the tree
    [parse_md] returns is rooted at a node labelled with the base name of
    the file name; and a document without any heading token, the empty
    document included, gives that root alone, with no children. *)
Theorem parse_md_root `{MarkdownIt} (md_text name : string) :
  (∀ r, parse_md md_text name = Ok r → text r = basename name) ∧
  ((∀ token, token ∈ md_parse md_text → type token ≠ "heading_open") →
   parse_md md_text name = Ok (Node_init (basename name))).
Proof.
  split.
  - intros r Hr. unfold parse_md in Hr. by apply parse_loop_text in Hr.
  - intros Hno. unfold parse_md. by apply parse_loop_no_heading.
Qed.

(** ** The levels the exporter writes *)

Lemma stepped_nil lo : stepped lo [].
Proof. split_and!; [constructor|done|done]. Qed.

Lemma stepped_app lo hs1 hs2 :
  stepped lo hs1 → stepped lo hs2 → stepped lo (hs1 ++ hs2).
Proof.
  intros (Hlo1 & Hhd1 & Hst1) (Hlo2 & Hhd2 & Hst2). split_and!.
  - by apply Forall_app.
  - intros h. destruct hs1; [apply Hhd2 | apply Hhd1].
  - intros j a b Ha Hb.
    destruct (decide (S j < length hs1)) as [Hlt|Hge].
    + rewrite lookup_app_l in Ha, Hb by lia. by eapply Hst1.
    + destruct (decide (S j = length hs1)) as [Heq|Hne].
      * rewrite lookup_app_l in Ha by lia.
        rewrite lookup_app_r, <- Heq, Nat.sub_diag in Hb by lia.
        rewrite (Hhd2 b) by (by destruct hs2; simplify_eq/=).
        apply list_elem_of_lookup_2 in Ha. rewrite Forall_forall in Hlo1.
        specialize (Hlo1 a Ha). lia.
      * rewrite lookup_app_r in Ha, Hb by lia.
        replace (S j - length hs1) with (S (j - length hs1)) in Hb by lia.
        by eapply Hst2.
Qed.

Lemma stepped_outline n : ∀ lo, stepped lo (outline lo n).
Proof.
  induction n as [t cs c IH] using Node_ind'. intros lo.
  cbn [outline text children].
  assert (stepped (S lo) (cs ≫= outline (S lo))) as (Hlo & Hhd & Hst).
  { induction IH as [|x cs Hx _ IHcs]; [apply stepped_nil|].
    rewrite bind_cons. by apply stepped_app. }
  split_and!.
  - constructor; [done|]. eapply Forall_impl; [exact Hlo|]. simpl. intros; lia.
  - by intros h [= <-].
  - intros [|j] a b Ha Hb; simpl in Ha, Hb.
    + injection Ha as <-. simpl. rewrite (Hhd b); [done|].
      by destruct (cs ≫= outline (S lo)); simplify_eq/=.
    + by eapply Hst.
Qed.

(** X7 — The exporter skips no level: whatever the tree, the lines of
    [to_markdown(root)] are headings of levels at least 1, the first of
    level 1, and each line is at most one level deeper than the line
    before it. *)
Theorem to_markdown_levels (root : Node) :
  ∃ hs : list (nat * string),
    to_markdown root 0 = (λ h, heading_line h.1 h.2) <$> hs ∧
    Forall (λ h, 1 ≤ h.1) hs ∧
    (∀ h, hs !! 0 = Some h → h.1 = 1) ∧
    (∀ j a b, hs !! j = Some a → hs !! S j = Some b → b.1 ≤ S a.1).
Proof.
  exists (children root ≫= outline 1). split; [apply to_markdown_root_outline|].
  assert (stepped 1 (children root ≫= outline 1)) as (Hlo & Hhd & Hst).
  { induction (children root) as [|x cs IH]; [apply stepped_nil|].
    rewrite bind_cons. apply stepped_app; [apply stepped_outline|done]. }
  split_and!; [done| |done].
  intros h Hh. apply Hhd. by destruct (children root ≫= outline 1).
Qed.

(** ** Importing, then exporting *)

Lemma parent_length r par : parent r = Some par → length r = S (length par).
Proof.
  destruct r as [|a r]; [done|]. intros [= <-].
  revert a. induction r as [|b r IH]; intros a; [done|].
  cbn [removelast length] in *. f_equal. apply IH.
Qed.

Lemma import_inv_depth hs root stack :
  import_inv hs (root, stack) →
  ∀ j r L, preorder root !! j = Some r → (0 :: hs.*1) !! j = Some L →
           length r ≤ L.
Proof.
  intros (Hlen & _ & _ & _ & Hnear). simpl in *.
  intros j. induction j as [j IH] using lt_wf_ind. intros r L Hr HL.
  destruct j as [|j].
  - destruct (preorder_head root) as [l Hl]. rewrite Hl in Hr.
    injection Hr as <-. simpl. lia.
  - assert (S j ≤ length hs) as Hj.
    { apply lookup_lt_Some in HL. simpl in HL. rewrite length_fmap in HL. lia. }
    destruct (Hnear (S j)) as (i & L' & Li & r' & par & Hij & HL' & HLi & Hlt
                               & Hr' & Hpar & Hi & _); [lia..|].
    assert (L' = L) as -> by congruence. assert (r' = r) as -> by congruence.
    pose proof (IH i Hij par Li Hi HLi) as Hdepth.
    rewrite (parent_length _ _ Hpar). lia.
Qed.

(** X8 — Importing, then exporting: on a document whose heading tokens are
    well formed, exporting the tree [parse_md] returns writes one line per
    heading, in the order of the document and with the heading's content
    as text, at a level between 1 and the level the heading had in the
    document: a heading is never written deeper than it was read. *)
Theorem import_then_export `{MarkdownIt} (md_text name : string) :
  heading_wf (md_parse md_text) →
  let hs := headings (md_parse md_text) in
  ∃ r,
    parse_md md_text name = Ok r ∧
    length (to_markdown r 0) = length hs ∧
    ∀ j L c, hs !! j = Some (L, c) →
      ∃ d, to_markdown r 0 !! j = Some (heading_line d c) ∧ 1 ≤ d ∧ d ≤ L.
Proof.
  intros Hwf hs.
  destruct (import_inv_attach_all hs [] _ (import_inv_init (basename name))
              (headings_levels _ Hwf)) as ([r stack] & Hall & Hinv).
  simpl in Hall, Hinv. exists r.
  split; [rewrite parse_md_attach_all by done; fold hs; by rewrite Hall|].
  pose proof (import_inv_depth _ _ _ Hinv) as Hdepth.
  destruct Hinv as (Hlen & _ & _ & Htexts & _).
  cbn [fst snd length] in Hlen, Htexts. rewrite length_fmap in Hlen.
  rewrite to_markdown_positions. simpl.
  destruct (preorder_head r) as [refs Hrefs]. rewrite Hrefs in *.
  cbn [tail length] in *. rewrite length_fmap. split; [lia|].
  intros j L c Hj.
  destruct (lookup_lt_is_Some_2 refs j) as [p Hp].
  { apply lookup_lt_Some in Hj. lia. }
  exists (length p). rewrite list_lookup_fmap, Hp. simpl. split_and!.
  - do 2 f_equal. apply (f_equal (λ l, l !! j)) in Htexts.
    rewrite !list_lookup_fmap, Hp, Hj in Htexts. simpl in Htexts. congruence.
  - assert (p ∈ tail (preorder r)) as Hin.
    { rewrite Hrefs. simpl. by eapply list_elem_of_lookup_2. }
    apply elem_of_tail_positions in Hin as [Hne _]. destruct p; [done|simpl; lia].
  - apply (Hdepth (S j) p L); [done|]. simpl. by rewrite list_lookup_fmap, Hj.
Qed.

(** ** The painted tree *)

Lemma recurse_unfold sel ref n :
  recurse sel ref n = recurse_children sel ref (children n) 0.
Proof.
  destruct n as [t cs c]; simpl. generalize 0.
  induction cs as [|x cs IH]; intros i; simpl; [done|]. by rewrite IH.
Qed.

Lemma fmap_flat_imap {A B C} (g : B → C) (f : nat → A → list B) k l :
  g <$> flat_imap f k l = flat_imap (λ i x, g <$> f i x) k l.
Proof.
  revert k. induction l as [|x l IH]; intros k; simpl; [done|].
  by rewrite fmap_app, IH.
Qed.

Lemma flat_imap_ext {A B} (f g : nat → A → list B) k l :
  (∀ i x, l !! i = Some x → f (k + i) x = g (k + i) x) →
  flat_imap f k l = flat_imap g k l.
Proof.
  revert k. induction l as [|x l IH]; intros k H; simpl; [done|]. f_equal.
  - specialize (H 0 x eq_refl). by rewrite Nat.add_0_r in H.
  - apply IH. intros i y Hi. specialize (H (S i) y Hi).
    by rewrite Nat.add_succ_r in H.
Qed.

Lemma positions_unfold hide n :
  positions hide n
  = [] :: if hide && collapsed n then []
          else flat_imap (λ i c, cons i <$> positions hide c) 0 (children n).
Proof. by destruct n. Qed.

Lemma rows_recurse sel n : ∀ ref,
  recurse sel ref n ≫= rows (S (length ref))
  = flat_imap (λ i c, (λ q, row sel (ref ++ i :: q) (deref c q)) <$> visible c)
      0 (children n).
Proof.
  induction n as [t cs c IH] using Node_ind'. intros ref.
  rewrite recurse_unfold. cbn [children]. generalize 0 as k.
  induction IH as [|x cs Hx _ IHcs]; intros k; [done|].
  cbn [recurse_children flat_imap]. rewrite bind_cons, IHcs. f_equal.
  cbn [rows label style branches]. unfold visible.
  rewrite (positions_unfold true x). cbn [andb]. rewrite fmap_cons. f_equal.
  - unfold row, deref. cbn [node_at default id].
    rewrite length_app, Nat.add_1_r.
    destruct (decide (ref ++ [k] = [])) as [Hnil|_];
      [by destruct ref|].
    destruct (decide (ref ++ [k] = sel)) as [Hs|Hs].
    + by rewrite (bool_decide_eq_true_2 _ Hs).
    + by rewrite (bool_decide_eq_false_2 _ Hs).
  - destruct (collapsed x); [done|].
    specialize (Hx (ref ++ [k])). rewrite length_app, Nat.add_1_r in Hx.
    rewrite Hx, fmap_flat_imap. apply flat_imap_ext. intros i y Hi.
    rewrite <- list_fmap_compose. apply list_fmap_ext. intros _ q _.
    cbn [compose Nat.add]. rewrite <- app_assoc. cbn [app].
    by rewrite (deref_cons x i q y).
Qed.

Lemma visible_expanded_root n :
  collapsed n = false → set_collapsed false n = n.
Proof. destruct n as [t cs c]. simpl. by intros ->. Qed.

Lemma visible_expand_root n i r :
  visible n !! i = Some r → visible (set_collapsed false n) !! i = Some r.
Proof.
  destruct (collapsed n) eqn:Hc; [|by rewrite visible_expanded_root].
  unfold visible at 1. rewrite positions_unfold, Hc. cbn [andb].
  destruct i as [|i]; [|done]. intros [= <-].
  by destruct (visible_head (set_collapsed false n)) as [l ->].
Qed.

(** X9 — What is painted: the tree [get_ui_content] hands to the console
    has one row per node that [get_visible_nodes] lists for the tree with
    the root expanded, in the same order: the root's own [collapsed] flag
    hides nothing on screen, though it keeps the selection on the root.  A
    row is indented by the depth of its node and labelled with the node's
    text, after [[+]] when the node is collapsed and has children; exactly
    one row is given the style [reverse green]: the one whose number is
    the clamped index. *)
Theorem painted_rows (st : AppState) :
  ∃ st' sel t,
    get_selected_node st = Ok (st', sel) ∧
    get_ui_tree st = Ok (st', t) ∧
    rows 0 t
    = (λ r, row sel r (deref (root st) r))
        <$> get_visible_nodes (set_collapsed false (root st)) ∧
    (∀ j rw, rows 0 t !! j = Some rw →
       rw.2 = "reverse green" ↔ Z.of_nat j = selected_index st') ∧
    (∃ rw, rows 0 t !! Z.to_nat (selected_index st') = Some rw) ∧
    Forall (λ r, r ∈ get_visible_nodes (set_collapsed false (root st)))
      (get_visible_nodes (root st)) ∧
    (collapsed (root st) = true → sel = [] ∧ selected_index st' = 0%Z).
Proof.
  destruct (get_selected_node_spec st) as (sel & Hget & Hsel).
  destruct (get_selected_node_root _ _ _ Hget) as (Hroot & _ & Hat & Hpos).
  eexists _, sel, _. split; [exact Hget|].
  unfold get_ui_tree. rewrite Hget. cbn [mbind Result_bind].
  split; [reflexivity|]. cbn [root set_selected_index].
  assert (rows 0
            (mkTree (" " +:+ text (root st) +:+ " ")
               (if bool_decide ([] = sel) then "reverse green" else "bold magenta")
               (recurse sel [] (root st)))
          = (λ r, row sel r (deref (root st) r))
              <$> get_visible_nodes (set_collapsed false (root st))) as Hrows.
  { cbn [rows label style branches].
    pose proof (rows_recurse sel (root st) []) as Hr. cbn [length app] in Hr.
    rewrite Hr, get_visible_nodes_visible. clear Hr.
    unfold visible. rewrite positions_unfold.
    cbn [andb collapsed set_collapsed children].
    rewrite fmap_cons, fmap_flat_imap. f_equal.
    - unfold row, deref. cbn [node_at default id length].
      destruct (decide ([] = [])) as [_|]; [|done].
      destruct (decide ([] = sel)) as [Hs|Hs].
      + by rewrite (bool_decide_eq_true_2 _ Hs).
      + by rewrite (bool_decide_eq_false_2 _ Hs).
    - apply flat_imap_ext. intros i y Hi.
      rewrite <- list_fmap_compose. apply list_fmap_ext. intros _ q _.
      cbn [compose app Nat.add]. by rewrite (deref_cons (root st) i q y). }
  split; [exact Hrows|]. rewrite Hrows. clear Hrows.
  set (shown := get_visible_nodes (set_collapsed false (root st))).
  assert (∀ r, r ∈ get_visible_nodes (root st) → r ∈ shown) as Hsub.
  { intros r. unfold shown. rewrite !get_visible_nodes_visible.
    unfold visible. rewrite !elem_of_positions.
    intros [Hn Hex]. split.
    - by destruct r.
    - intros _. specialize (Hex eq_refl). destruct r as [|i r]; [done|].
      cbn [expanded_above set_collapsed collapsed children] in *.
      by destruct Hex. }
  assert (shown !! Z.to_nat (selected_index
            (set_selected_index
               (Z.max 0 (Z.min (selected_index st)
                  (Z.of_nat (length (get_visible_nodes (root st))) - 1))) st))
          = Some sel) as Hidx.
  { unfold shown.
    rewrite (get_visible_nodes_visible (set_collapsed false (root st))).
    apply visible_expand_root. rewrite <- get_visible_nodes_visible.
    exact Hat. }
  split_and!.
  - intros j rw Hj. rewrite list_lookup_fmap in Hj.
    destruct (shown !! j) as [r|] eqn:Hr; [|done]. injection Hj as <-.
    unfold row. cbn [snd]. split.
    + intros Hst. destruct (decide (r = sel)) as [->|Hne].
      * unfold shown in Hr, Hidx.
        rewrite (get_visible_nodes_visible (set_collapsed false (root st)))
          in Hr, Hidx.
        pose proof (visible_lookup_unique _ _ _ _ Hr Hidx). lia.
      * by destruct (decide (r = [])).
    + intros Hj. assert (j = Z.to_nat (selected_index
            (set_selected_index
               (Z.max 0 (Z.min (selected_index st)
                  (Z.of_nat (length (get_visible_nodes (root st))) - 1))) st)))
        as -> by lia.
      rewrite Hidx in Hr. injection Hr as <-.
      by destruct (decide (sel = sel)).
  - rewrite list_lookup_fmap, Hidx. by eexists.
  - by apply Forall_forall.
  - intros Hc.
    assert (get_visible_nodes (root st) = [[]]) as Hv.
    { rewrite get_visible_nodes_visible. unfold visible.
      by rewrite positions_unfold, Hc. }
    cbn [selected_index set_selected_index]. rewrite Hv in Hsel |- *.
    cbn [length] in Hsel |- *. split; [|lia].
    replace (Z.to_nat _) with 0 in Hsel by lia. by injection Hsel.
Qed.

Lemma get_ui_content_tree (s : Session) :
  get_ui_content s = '(st, _) ← get_ui_tree (state s); Ok (set_state st s).
Proof.
  unfold get_ui_content, get_ui_tree.
  by destruct (get_selected_node (state s)) as [[st sel]|].
Qed.

(** ** Texts are never empty *)

Lemma named_unfold n :
  named n = true
  ↔ text n ≠ "" ∧ Forall (λ c, named c = true) (children n).
Proof.
  destruct n as [t cs c]. cbn [named text children].
  rewrite andb_true_iff, bool_decide_eq_true, List.forallb_forall, Forall_forall.
  by setoid_rewrite list_elem_of_In.
Qed.

Lemma named_update_at f r : ∀ n,
  (∀ m, named m = true → named (f m) = true) →
  named n = true → named (update_at f r n) = true.
Proof.
  induction r as [|i r IH]; intros n Hf Hn; [by apply Hf|].
  apply named_unfold in Hn as [Ht Hcs]. apply named_unfold.
  cbn [update_at text children]. split; [done|].
  apply Forall_alter; [done|]. intros c _. by apply IH.
Qed.

Lemma children_named_update_at f r n :
  (∀ m, named m = true → named (f m) = true) →
  (∀ m, Forall (λ c, named c = true) (children m) →
        Forall (λ c, named c = true) (children (f m))) →
  Forall (λ c, named c = true) (children n) →
  Forall (λ c, named c = true) (children (update_at f r n)).
Proof.
  intros Hf Hcs Hn. destruct r as [|i r]; [by apply Hcs|].
  cbn [update_at children]. apply Forall_alter; [done|]. intros c _.
  by apply named_update_at.
Qed.

Lemma children_named_edit (cs' : Node → list Node) r n :
  (∀ m, Forall (λ c, named c = true) (children m) →
        Forall (λ c, named c = true) (cs' m)) →
  Forall (λ c, named c = true) (children n) →
  Forall (λ c, named c = true)
    (children (update_at (λ p, set_children (cs' p) p) r n)).
Proof.
  intros Hcs. apply children_named_update_at.
  - intros m [Ht Hm]%named_unfold. apply named_unfold. split; [done|].
    by apply Hcs.
  - intros m Hm. by apply Hcs.
Qed.

Lemma press_named (k : Key) (s s' : Session) :
  Forall (λ c, named c = true) (children (root (state s))) →
  press k s = Ok s' →
  Forall (λ c, named c = true) (children (root (state s'))).
Proof.
  intros Hn H. unfold press in H.
  destruct (get_selected_node_spec (state s)) as (sel & Hget & _).
  destruct (is_editing (state s)) eqn:Hed.
  - destruct k; try (by injection H as <-).
    + unfold finish_edit in H. rewrite Hget in H. injection H as <-.
      cbn [state root set_root set_is_editing set_selected_index].
      apply children_named_update_at; [| |done].
      * intros m [Ht Hm]%named_unfold. apply named_unfold. split; [|done].
        cbn [set_text text]. by destruct (decide (edit_input_text s = "")).
      * done.
  - destruct k; try (by injection H as <-).
    + unfold rename in H. rewrite Hget in H. by injection H as <-.
    + destruct (add_child_enters s) as (? & ? & ? & s1 & ? & _ & _ & H1 & Hr & _).
      cbn [press] in H. rewrite H1 in H. injection H as <-. rewrite Hr.
      apply children_named_update_at; [| |done].
      * intros m [Ht Hm]%named_unfold. apply named_unfold. split; [done|].
        cbn [children]. apply Forall_app. split; [done|]. by constructor.
      * intros m Hm. cbn [children]. apply Forall_app. split; [done|].
        by constructor.
    + destruct (parent sel) as [par|] eqn:Hpar.
      * destruct (add_sibling_enters s _ sel par Hget Hpar)
          as (s1 & ? & H1 & Hr & _).
        rewrite H1 in H. injection H as <-. rewrite Hr.
        apply children_named_edit; [|done].
        intros m Hm. unfold list_insert_at. apply Forall_app. split.
        -- by apply Forall_take.
        -- constructor; [done|]. by apply Forall_drop.
      * unfold add_sibling_and_edit in H. rewrite Hget in H.
        cbn [mbind Result_bind] in H. rewrite Hpar in H. by injection H as <-.
    + unfold delete_node in H. rewrite Hget in H. cbn [mbind Result_bind] in H.
      destruct (parent sel) as [par|]; injection H as <-; [|done].
      cbn [state root set_root set_state set_selected_index].
      apply children_named_edit; [|done].
      intros m Hm. by apply Forall_delete.
    + unfold toggle_collapse in H. rewrite Hget in H.
      cbn [mbind Result_bind] in H.
      destruct (decide _); injection H as <-; [|done].
      cbn [state root set_root set_state set_selected_index].
      apply children_named_update_at; [| |done].
      * intros m [Ht Hm]%named_unfold. by apply named_unfold.
      * done.
Qed.

(** X10 — Texts are never empty: if no node below the root has an empty
    text, no sequence of keys makes one: a committed empty input is stored
    as [Untitled], and inserted nodes start with a placeholder.  So no
    line the exporter then writes is a bare run of [#]. *)
Theorem texts_never_empty (keys : list Key) (s : Session) :
  Forall (λ c, named c = true) (children (root (state s))) →
  ∃ s',
    run keys s = Ok s' ∧
    Forall (λ c, named c = true) (children (root (state s'))) ∧
    Forall (λ h, h.2 ≠ "") (children (root (state s')) ≫= outline 1).
Proof.
  intros Hn.
  assert (∃ s', run keys s = Ok s'
                ∧ Forall (λ c, named c = true) (children (root (state s'))))
    as (s' & Hrun & Hn').
  { revert s Hn. induction keys as [|k keys IH]; intros s Hn.
    - by exists s.
    - destruct (press_ok k s) as [s1 Hp].
      destruct (get_ui_content_ok s1) as [s2 Hu].
      destruct (IH s2) as (s' & Hrun & Hn').
      + unfold get_ui_content in Hu.
        destruct (get_selected_node (state s1)) as [[st r]|] eqn:Hg; [|done].
        injection Hu as <-. cbn [state set_state].
        destruct (get_selected_node_root _ _ _ Hg) as (-> & _).
        by eapply press_named.
      + exists s'. split; [|done]. cbn [run]. rewrite Hp.
        cbn [mbind Result_bind]. rewrite Hu. done. }
  exists s'. split; [done|].
  split; [done|].
  assert (∀ n level, named n = true → Forall (λ h, h.2 ≠ "") (outline level n))
    as Hout.
  { induction n as [t cs c IH] using Node_ind'. intros level Hnamed.
    apply named_unfold in Hnamed as [Ht Hcs]. cbn [outline text children] in *.
    constructor; [done|]. apply Forall_bind.
    rewrite Forall_forall in IH, Hcs |- *. intros x Hx.
    by apply IH, Hcs. }
  apply Forall_bind. eapply Forall_impl; [exact Hn'|]. intros x Hx.
  by apply Hout.
Qed.

(** ** Removing and inserting among the children of a node *)

Lemma parent_last r par : parent r = Some par → r = par ++ [List.last r 0].
Proof.
  destruct r as [|a r]; [done|]. intros [= <-]. by apply app_removelast_last.
Qed.


Lemma alter_middle {A} (f : A → A) l i x :
  l !! i = Some x → alter f i l = take i l ++ f x :: drop (S i) l.
Proof.
  intros Hx. rewrite <- (take_drop_middle l i x) at 1 by done.
  apply lookup_lt_Some in Hx.
  rewrite alter_app_r_alt by (rewrite length_take; lia).
  rewrite length_take_le by lia. by rewrite Nat.sub_diag.
Qed.

Lemma to_markdown_children_app cs1 cs2 level :
  to_markdown_children (cs1 ++ cs2) level
  = to_markdown_children cs1 level ++ to_markdown_children cs2 level.
Proof.
  induction cs1 as [|c cs1 IH]; simpl; [done|]. by rewrite IH, app_assoc.
Qed.

Lemma to_markdown_update_at par : ∀ n m level,
  node_at n par = Some m →
  ∃ pre post, ∀ f,
    to_markdown (update_at f par n) level
    = pre ++ to_markdown (f m) (level + length par) ++ post.
Proof.
  induction par as [|i par IH]; intros n m level Hm.
  - injection Hm as ->. exists [], []. intros f. cbn [update_at length app].
    by rewrite Nat.add_0_r, app_nil_r.
  - cbn [node_at] in Hm. destruct (children n !! i) as [c|] eqn:Hc; [|done].
    destruct (IH c m (level + 1) Hm) as (pre & post & H).
    exists ((if decide (0 < level) then [heading_line level (text n)] else [])
            ++ to_markdown_children (take i (children n)) (level + 1) ++ pre),
           (post ++ to_markdown_children (drop (S i) (children n)) (level + 1)).
    intros f. cbn [update_at]. rewrite to_markdown_unfold. cbn [text children].
    rewrite (alter_middle _ _ _ _ Hc), to_markdown_children_app.
    cbn [to_markdown_children]. rewrite H.
    replace (level + 1 + length par) with (level + length (i :: par))
      by (cbn [length]; lia).
    by rewrite <- !app_assoc.
Qed.

Lemma visible_children par m :
  collapsed m = false →
  app par <$> visible m
  = par :: flat_imap (λ i c, app (par ++ [i]) <$> visible c) 0 (children m).
Proof.
  intros Hc. unfold visible. rewrite positions_unfold, Hc. cbn [andb].
  by rewrite fmap_cons, app_nil_r, flat_imap_map_prefix.
Qed.

Lemma flat_imap_length {A B} (f g : nat → A → list B) l : ∀ i j,
  (∀ i j x, length (f i x) = length (g j x)) →
  length (flat_imap f i l) = length (flat_imap g j l).
Proof.
  induction l as [|x l IH]; intros i j H; simpl; [done|].
  rewrite !length_app. f_equal; [apply H | by apply IH].
Qed.

Lemma flat_imap_middle {A B} (f : nat → A → list B) l k x :
  l !! k = Some x →
  flat_imap f 0 l
  = flat_imap f 0 (take k l) ++ f k x ++ flat_imap f (S k) (drop (S k) l).
Proof.
  intros Hx. rewrite <- (take_drop_middle l k x) at 1 by done.
  apply lookup_lt_Some in Hx.
  rewrite flat_imap_app, length_take_le by lia. done.
Qed.

Lemma flat_imap_delete {A B} (f : nat → A → list B) l k :
  k < length l →
  flat_imap f 0 (delete k l)
  = flat_imap f 0 (take k l) ++ flat_imap f k (drop (S k) l).
Proof.
  intros Hk. rewrite delete_take_drop, flat_imap_app.
  by rewrite length_take_le by lia.
Qed.

(** The visible sequence and the export around the children of the node
    at [par]. *)
Lemma children_splice root par m :
  node_at root par = Some m → expanded_above root par →
  ∃ vpre vpost tpre tpost,
    visible root !! length vpre = Some par ∧
    (∀ f, collapsed (f m) = false →
          visible (update_at f par root)
          = vpre ++ par
            :: flat_imap (λ i c, app (par ++ [i]) <$> visible c) 0
                 (children (f m)) ++ vpost) ∧
    (∀ f, text (f m) = text m →
          to_markdown (update_at f par root) 0
          = tpre ++ to_markdown_children (children (f m)) (length par + 1)
            ++ tpost).
Proof.
  intros Hm Hexp.
  destruct (visible_update_at_id par root m Hm Hexp) as (vpre & vpost & Hv & Hvf).
  destruct (to_markdown_update_at par root m 0 Hm) as (tpre & tpost & Ht).
  exists vpre, vpost,
    (tpre ++ if decide (0 < length par)
             then [heading_line (length par) (text m)] else []), tpost.
  split_and!.
  - rewrite Hv. destruct (visible_head m) as [l ->].
    rewrite fmap_cons, app_nil_r. by apply list_lookup_middle.
  - intros f Hc. by rewrite Hvf, visible_children.
  - intros f Hf. rewrite Ht, to_markdown_unfold, Hf. cbn [Nat.add].
    by rewrite <- !app_assoc.
Qed.

Lemma lookup_after {A} (l1 l2 l3 l4 l5 : list A) a b :
  (l1 ++ a :: (l2 ++ (b :: l3) ++ l4) ++ l5) !! length (l1 ++ a :: l2)
  = Some b.
Proof.
  rewrite length_app. cbn [length]. rewrite lookup_app_r by lia.
  replace (length l1 + S (length l2) - length l1) with (S (length l2)) by lia.
  rewrite lookup_cons_ne_0 by lia. cbn [Nat.pred]. rewrite <- !app_assoc.
  rewrite lookup_app_r by lia. by rewrite Nat.sub_diag.
Qed.

Lemma selected_child root i par k :
  visible root !! i = Some (par ++ [k]) →
  ∃ m c,
    node_at root par = Some m ∧ children m !! k = Some c ∧
    node_at root (par ++ [k]) = Some c ∧
    expanded_above root par ∧ collapsed m = false.
Proof.
  intros Hi. destruct (visible_valid _ _ _ Hi) as (c & Hc & Hexp).
  rewrite node_at_app in Hc. apply expanded_above_app in Hexp as [Hpar Hk].
  destruct (node_at root par) as [m|] eqn:Hm; [|done].
  cbn [mbind option_bind node_at] in Hc. cbn [expanded_above] in Hk.
  destruct (children m !! k) as [c'|] eqn:Hk'; [|done].
  injection Hc as ->. exists m, c. split_and!; try done.
  - rewrite node_at_app, Hm. cbn [mbind option_bind node_at]. by rewrite Hk'.
  - by destruct Hk.
Qed.

Lemma delete_child_facts root i par k m c :
  visible root !! i = Some (par ++ [k]) →
  node_at root par = Some m → children m !! k = Some c →
  expanded_above root par → collapsed m = false →
  let tree :=
    update_at (λ p, set_children (delete k (children p)) p) par root in
  (∃ pre post,
     to_markdown root 0 = pre ++ to_markdown c (length par + 1) ++ post ∧
     to_markdown tree 0 = pre ++ post) ∧
  length (visible tree) + length (visible c) = length (visible root) ∧
  (∀ next, children m !! S k = Some next →
     node_at tree (par ++ [k]) = Some next ∧
     visible tree !! i = Some (par ++ [k])).
Proof.
  intros Hi Hm Hk Hexp Hcm tree.
  destruct (children_splice root par m Hm Hexp)
    as (vpre & vpost & tpre & tpost & Hpar & Hv & Ht).
  set (H := λ (i : nat) (c : Node), app (par ++ [i]) <$> visible c) in *.
  set (f := λ p, set_children (delete k (children p)) p) in *.
  apply lookup_lt_Some in Hk as Hlt.
  pose proof (Hv id Hcm) as Hv0. rewrite update_at_id in Hv0 by done.
  pose proof (Ht id eq_refl) as Ht0. rewrite update_at_id in Ht0 by done.
  cbn [id] in Hv0, Ht0.
  rewrite (flat_imap_middle H _ k c Hk) in Hv0.
  pose proof (Hv f Hcm) as Hv1. pose proof (Ht f eq_refl) as Ht1.
  fold tree in Hv1, Ht1. unfold f in Hv1, Ht1.
  cbn [children set_children] in Hv1, Ht1.
  rewrite (flat_imap_delete H _ k Hlt) in Hv1.
  split_and!.
  - exists (tpre ++ to_markdown_children (take k (children m)) (length par + 1)),
      (to_markdown_children (drop (S k) (children m)) (length par + 1) ++ tpost).
    rewrite Ht0, Ht1, delete_take_drop.
    rewrite <- (take_drop_middle (children m) k c Hk) at 1.
    rewrite !to_markdown_children_app. cbn [to_markdown_children].
    by rewrite <- !app_assoc.
  - rewrite Hv0, Hv1. rewrite !length_app. cbn [length]. rewrite !length_app.
    assert (length (H k c) = length (visible c)) as ->
      by (unfold H; by rewrite length_fmap).
    rewrite (flat_imap_length H H (drop (S k) (children m)) k (S k)); [lia|].
    intros ? ? ?. unfold H. by rewrite !length_fmap.
  - intros next Hnext. split.
    + unfold tree. rewrite node_at_app, (node_at_update_at f par root m Hm).
      cbn [mbind option_bind node_at f set_children children].
      rewrite list_lookup_delete_ge, Hnext by lia. done.
    + assert (i = length (vpre ++ par :: flat_imap H 0 (take k (children m))))
        as ->.
      { eapply visible_lookup_unique; [exact Hi|]. rewrite Hv0.
        destruct (visible_head c) as [lc Hlc].
        assert (H k c = (par ++ [k]) :: (app (par ++ [k]) <$> lc)) as ->
          by (unfold H; by rewrite Hlc, fmap_cons, app_nil_r).
        apply lookup_after. }
      rewrite Hv1.
      assert (drop (S k) (children m) = next :: drop (S (S k)) (children m))
        as ->.
      { by apply drop_S. }
      cbn [flat_imap]. destruct (visible_head next) as [ln Hln].
      assert (H k next = (par ++ [k]) :: (app (par ++ [k]) <$> ln)) as ->
        by (unfold H; by rewrite Hln, fmap_cons, app_nil_r).
      apply lookup_after.
Qed.

(** X11 — What [d d] removes: with a node other than the root selected,
    [d d] takes the node out of its parent's children, and with it exactly
    the node's block of lines from the export and its visible rows from
    the screen.  After the repaint the index is where it was, or on the
    last row when the removed rows were the last; when the node had a next
    sibling, that sibling moves into the node's position and is the one
    selected. *)
Theorem delete_node_cuts (s : Session) (i : nat) (r par : NodeRef) :
  is_editing (state s) = false →
  get_visible_nodes (root (state s)) !! i = Some r →
  selected_index (state s) = Z.of_nat i →
  parent r = Some par →
  let root0 := root (state s) in
  let gone := deref root0 r in
  ∃ s',
    run [key_d_d] s = Ok s' ∧
    root (state s')
    = update_at (λ p, set_children (delete (List.last r 0) (children p)) p)
        par root0 ∧
    (∃ pre post,
       to_markdown root0 0 = pre ++ to_markdown gone (length r) ++ post ∧
       to_markdown (root (state s')) 0 = pre ++ post) ∧
    length (get_visible_nodes (root (state s')))
    + length (get_visible_nodes gone)
    = length (get_visible_nodes root0) ∧
    selected_index (state s')
    = Z.min (Z.of_nat i)
        (Z.of_nat (length (get_visible_nodes (root (state s')))) - 1) ∧
    (∀ next, node_at root0 (par ++ [List.last r 0 + 1]) = Some next →
       node_at (root (state s')) r = Some next ∧
       get_selected_node (state s') = Ok (state s', r)).
Proof.
  intros Hnav Hi Hsel Hpar root0 gone. subst root0 gone.
  pose proof (parent_last _ _ Hpar) as Hr.
  set (k := List.last r 0) in *. clearbody k. subst r.
  pose proof (get_selected_node_at _ _ _ Hi Hsel) as Hget.
  rewrite get_visible_nodes_visible in Hi.
  destruct (selected_child _ _ _ _ Hi) as (m & c & Hm & Hk & Hc & Hexp & Hcm).
  destruct (delete_child_facts _ _ _ _ _ _ Hi Hm Hk Hexp Hcm)
    as (Hexport & Hlen & Hnext).
  set (tree := update_at (λ p, set_children (delete k (children p)) p) par
                 (root (state s))) in *.
  assert (press key_d_d s = Ok (set_state (set_root tree (state s)) s))
    as Hpress.
  { unfold press. rewrite Hnav. unfold delete_node. rewrite Hget.
    cbn [mbind Result_bind]. by rewrite Hpar, last_last. }
  set (s1 := set_state (set_root tree (state s)) s) in *.
  destruct (get_selected_node_spec (state s1)) as (n & Hg & _).
  pose proof (get_visible_nodes_nonempty tree) as Hne.
  eexists. split_and!.
  - cbn [run]. rewrite Hpress. cbn [mbind Result_bind]. unfold get_ui_content.
    rewrite Hg. reflexivity.
  - done.
  - rewrite (deref_node_at _ _ _ Hc), length_app, Nat.add_1_r.
    rewrite Nat.add_1_r in Hexport. exact Hexport.
  - cbn [state set_state root set_root set_selected_index].
    rewrite (deref_node_at _ _ _ Hc), !get_visible_nodes_visible. exact Hlen.
  - cbn [state set_state root set_root set_selected_index selected_index s1].
    rewrite Hsel. lia.
  - intros next Hn. rewrite node_at_app, Hm in Hn.
    cbn [mbind option_bind node_at] in Hn. rewrite Nat.add_1_r in Hn.
    destruct (children m !! S k) as [x|] eqn:Hx; [|done]. injection Hn as ->.
    destruct (Hnext next eq_refl) as [Hat Hvis].
    split; [exact Hat|].
    apply (get_selected_node_at _ i).
    + cbn [state set_state root set_root set_selected_index s1].
      by rewrite get_visible_nodes_visible.
    + cbn [state set_state root set_root set_selected_index selected_index s1].
      apply lookup_lt_Some in Hvis. rewrite <- get_visible_nodes_visible in Hvis.
      rewrite Hsel. lia.
Qed.

(** ** Where an inserted node lands *)

Lemma lookup_after_block {A} (l1 l2 l3 l4 l5 : list A) a b :
  (l1 ++ a :: (l2 ++ l3 ++ (b :: l4)) ++ l5)
  !! (length (l1 ++ a :: l2) + length l3)
  = Some b.
Proof.
  rewrite length_app. cbn [length]. rewrite lookup_app_r by lia.
  replace (length l1 + S (length l2) + length l3 - length l1)
    with (S (length l2 + length l3)) by lia.
  rewrite lookup_cons_ne_0 by lia. cbn [Nat.pred]. rewrite <- !app_assoc.
  rewrite lookup_app_r by lia. rewrite lookup_app_r by lia.
  replace (length l2 + length l3 - length l2 - length l3) with 0 by lia.
  done.
Qed.

Lemma to_markdown_leaf t level :
  0 < level → to_markdown (Node_init t) level = [heading_line level t].
Proof.
  intros Hl. rewrite to_markdown_unfold. cbn [Node_init text children].
  by destruct (decide (0 < level)).
Qed.

Lemma insert_sibling_facts root i par k m c t :
  visible root !! i = Some (par ++ [k]) →
  node_at root par = Some m → children m !! k = Some c →
  expanded_above root par → collapsed m = false →
  let tree :=
    update_at
      (λ p, set_children (list_insert_at (k + 1) (Node_init t) (children p)) p)
      par root in
  (∃ pre post,
     to_markdown root 0 = pre ++ to_markdown c (length par + 1) ++ post ∧
     to_markdown tree 0
     = pre ++ to_markdown c (length par + 1)
       ++ heading_line (length par + 1) t :: post) ∧
  length (visible tree) = S (length (visible root)) ∧
  visible tree !! i = Some (par ++ [k]) ∧
  visible tree !! (i + length (visible c)) = Some (par ++ [k + 1]) ∧
  node_at tree (par ++ [k]) = Some c.
Proof.
  intros Hi Hm Hk Hexp Hcm tree.
  destruct (children_splice root par m Hm Hexp)
    as (vpre & vpost & tpre & tpost & Hpar & Hv & Ht).
  set (H := λ (i : nat) (c : Node), app (par ++ [i]) <$> visible c) in *.
  set (f := λ p, set_children
                   (list_insert_at (k + 1) (Node_init t) (children p)) p) in *.
  apply lookup_lt_Some in Hk as Hlt.
  pose proof (Hv id Hcm) as Hv0. rewrite update_at_id in Hv0 by done.
  pose proof (Ht id eq_refl) as Ht0. rewrite update_at_id in Ht0 by done.
  cbn [id] in Hv0, Ht0.
  rewrite (flat_imap_middle H _ k c Hk) in Hv0.
  assert (children (f m)
          = take k (children m)
            ++ c :: Node_init t :: drop (S k) (children m)) as Hcs.
  { cbn [f set_children children]. unfold list_insert_at.
    rewrite Nat.add_1_r, (take_S_r _ _ _ Hk), <- app_assoc. done. }
  pose proof (Hv f Hcm) as Hv1. pose proof (Ht f eq_refl) as Ht1.
  fold tree in Hv1, Ht1. rewrite Hcs in Hv1, Ht1.
  rewrite flat_imap_app, length_take_le in Hv1 by lia.
  cbn [flat_imap Nat.add] in Hv1.
  assert (H (S k) (Node_init t) = [par ++ [k + 1]]) as HN.
  { unfold H. cbn [visible positions Node_init collapsed children andb
                    flat_imap]. by rewrite fmap_cons, app_nil_r, Nat.add_1_r. }
  rewrite HN in Hv1.
  destruct (visible_head c) as [lc Hlc].
  assert (H k c = (par ++ [k]) :: (app (par ++ [k]) <$> lc)) as Hc'
    by (unfold H; by rewrite Hlc, fmap_cons, app_nil_r).
  assert (i = length (vpre ++ par :: flat_imap H 0 (take k (children m))))
    as Hi'.
  { eapply visible_lookup_unique; [exact Hi|]. rewrite Hv0, Hc'.
    apply lookup_after. }
  assert (length (H k c) = length (visible c)) as Hlenc
    by (unfold H; by rewrite length_fmap).
  split_and!.
  - exists (tpre ++ to_markdown_children (take k (children m)) (length par + 1)),
      (to_markdown_children (drop (S k) (children m)) (length par + 1) ++ tpost).
    rewrite Ht0, Ht1.
    rewrite <- (take_drop_middle (children m) k c Hk) at 1.
    rewrite !to_markdown_children_app. cbn [to_markdown_children].
    rewrite to_markdown_leaf by lia.
    rewrite <- !app_assoc. cbn [app]. done.
  - rewrite Hv0, Hv1. rewrite !length_app. cbn [length]. rewrite !length_app.
    cbn [length].
    rewrite (flat_imap_length H H (drop (S k) (children m)) (S (S k)) (S k));
      [lia|].
    intros ? ? ?. unfold H. by rewrite !length_fmap.
  - rewrite Hi', Hv1, Hc'. apply lookup_after.
  - rewrite Hi', Hv1, <- Hlenc. apply (lookup_after_block vpre _ (H k c)).
  - unfold tree. rewrite node_at_app, (node_at_update_at f par root m Hm).
    cbn [mbind option_bind node_at]. rewrite Hcs.
    rewrite lookup_app_r by (rewrite length_take; lia).
    rewrite length_take_le by lia. by rewrite Nat.sub_diag.
Qed.

(** X12 — Where a new sibling lands: with a node other than the root
    selected, [enter] leaves the node where it is, on screen and in the
    tree, and puts the new node below the whole of the node's subtree: its
    row comes after the node's visible rows, and its line in the export,
    on the node's level, after the node's block of lines.  Nothing else on
    screen or in the export changes. *)
Theorem add_sibling_placement (s : Session) (i : nat) (r par : NodeRef) :
  get_visible_nodes (root (state s)) !! i = Some r →
  selected_index (state s) = Z.of_nat i →
  parent r = Some par →
  let root0 := root (state s) in
  let cur := deref root0 r in
  ∃ s',
    add_sibling_and_edit s = Ok s' ∧
    node_at (root (state s')) r = Some cur ∧
    get_visible_nodes (root (state s')) !! i = Some r ∧
    selected_index (state s')
    = Z.of_nat (i + length (get_visible_nodes cur)) ∧
    length (get_visible_nodes (root (state s')))
    = S (length (get_visible_nodes root0)) ∧
    ∃ pre post,
      to_markdown root0 0 = pre ++ to_markdown cur (length r) ++ post ∧
      to_markdown (root (state s')) 0
      = pre ++ to_markdown cur (length r)
        ++ heading_line (length r) "New Sibling" :: post.
Proof.
  intros Hi Hsel Hpar root0 cur. subst root0 cur.
  pose proof (get_selected_node_at _ _ _ Hi Hsel) as Hget.
  destruct (add_sibling_enters s _ r par Hget Hpar)
    as (s' & j & Hadd & Hroot & _ & Hj & Hidx & _).
  pose proof (parent_last _ _ Hpar) as Hr.
  set (k := List.last r 0) in *. clearbody k. subst r.
  rewrite get_visible_nodes_visible in Hi.
  destruct (selected_child _ _ _ _ Hi) as (m & c & Hm & Hk & Hc & Hexp & Hcm).
  destruct (insert_sibling_facts _ _ _ _ _ _ "New Sibling" Hi Hm Hk Hexp Hcm)
    as (Hexport & Hlen & Hcur & Hnew & Hat).
  rewrite <- Hroot in Hexport, Hlen, Hcur, Hnew, Hat.
  rewrite get_visible_nodes_visible in Hj.
  pose proof (visible_lookup_unique _ _ _ _ Hj Hnew) as ->.
  exists s'. rewrite (deref_node_at _ _ _ Hc), !get_visible_nodes_visible.
  rewrite length_app, Nat.add_1_r. rewrite Nat.add_1_r in Hexport.
  by split_and!.
Qed.

Lemma add_child_facts root i par m t :
  visible root !! i = Some par → node_at root par = Some m →
  let tree :=
    update_at (λ n, mkNode (text n) (children n ++ [Node_init t]) false)
      par root in
  (∃ pre post,
     to_markdown root 0 = pre ++ to_markdown m (length par) ++ post ∧
     to_markdown tree 0
     = pre ++ to_markdown m (length par)
       ++ heading_line (length par + 1) t :: post) ∧
  visible tree !! i = Some par ∧
  visible tree !! (i + length (visible (set_collapsed false m)))
  = Some (par ++ [length (children m)]).
Proof.
  intros Hi Hm tree.
  destruct (visible_valid _ _ _ Hi) as (m' & Hm' & Hexp).
  destruct (children_splice root par m Hm Hexp)
    as (vpre & vpost & _ & _ & Hpar & Hv & _).
  destruct (to_markdown_update_at par root m 0 Hm) as (tpre & tpost & Ht).
  set (H := λ (i : nat) (c : Node), app (par ++ [i]) <$> visible c) in *.
  set (f := λ n, mkNode (text n) (children n ++ [Node_init t]) false) in *.
  pose proof (visible_lookup_unique _ _ _ _ Hi Hpar) as ->.
  pose proof (Hv f eq_refl) as Hv1. fold tree in Hv1.
  cbn [f children] in Hv1. rewrite flat_imap_app in Hv1.
  cbn [flat_imap Nat.add] in Hv1.
  assert (H (length (children m)) (Node_init t) = [par ++ [length (children m)]])
    as HN.
  { unfold H. cbn [visible positions Node_init collapsed children andb
                    flat_imap]. by rewrite fmap_cons, app_nil_r. }
  rewrite HN in Hv1. cbn [app] in Hv1.
  split_and!.
  - exists tpre, tpost. pose proof (Ht id) as Ht0.
    rewrite update_at_id in Ht0 by done. cbn [id Nat.add] in Ht0.
    split; [exact Ht0|]. unfold tree. rewrite (Ht f). cbn [Nat.add].
    rewrite (to_markdown_unfold (f m)), (to_markdown_unfold m).
    cbn [f text children]. rewrite to_markdown_children_app.
    cbn [to_markdown_children]. rewrite to_markdown_leaf by lia.
    rewrite <- !app_assoc. cbn [app]. done.
  - rewrite Hv1. by apply list_lookup_middle.
  - rewrite Hv1.
    assert (length (visible (set_collapsed false m))
            = S (length (flat_imap H 0 (children m)))) as ->.
    { unfold visible. rewrite positions_unfold.
      cbn [set_collapsed collapsed children andb length]. f_equal.
      apply flat_imap_length. intros ? ? ?. unfold H.
      by rewrite !length_fmap. }
    rewrite lookup_app_r by lia.
    replace (length vpre + S (length (flat_imap H 0 (children m)))
             - length vpre)
      with (S (length (flat_imap H 0 (children m)))) by lia.
    rewrite lookup_cons_ne_0 by lia. cbn [Nat.pred]. rewrite <- app_assoc.
    rewrite lookup_app_r by lia. by rewrite Nat.sub_diag.
Qed.

(** X13 — Where a new child lands: [tab] leaves the selected node where it
    is and puts the new node below everything the node holds: its row
    comes after the rows of the node and of all that is visible below it
    once it is expanded, and its line in the export, one level deeper than
    the node, after the node's block of lines. *)
Theorem add_child_placement (s : Session) (i : nat) (par : NodeRef) :
  get_visible_nodes (root (state s)) !! i = Some par →
  selected_index (state s) = Z.of_nat i →
  let root0 := root (state s) in
  let cur := deref root0 par in
  ∃ s',
    add_child_and_edit s = Ok s' ∧
    get_visible_nodes (root (state s')) !! i = Some par ∧
    selected_index (state s')
    = Z.of_nat (i + length (get_visible_nodes (set_collapsed false cur))) ∧
    ∃ pre post,
      to_markdown root0 0 = pre ++ to_markdown cur (length par) ++ post ∧
      to_markdown (root (state s')) 0
      = pre ++ to_markdown cur (length par)
        ++ heading_line (length par + 1) "New Node" :: post.
Proof.
  intros Hi Hsel root0 cur. subst root0 cur.
  pose proof (get_selected_node_at _ _ _ Hi Hsel) as Hget.
  destruct (add_child_enters s)
    as (st & par' & m & s' & j & Hget' & Hm & Hadd & Hroot & Hj & Hidx & _).
  rewrite Hget in Hget'. injection Hget' as <- <-.
  rewrite get_visible_nodes_visible in Hi.
  destruct (add_child_facts _ _ _ _ "New Node" Hi Hm) as (Hexport & Hcur & Hnew).
  rewrite <- Hroot in Hexport, Hcur, Hnew.
  rewrite get_visible_nodes_visible in Hj.
  pose proof (visible_lookup_unique _ _ _ _ Hj Hnew) as ->.
  exists s'. rewrite (deref_node_at _ _ _ Hm), !get_visible_nodes_visible.
  by split_and!.
Qed.

(** ** Taking back an insertion *)




Lemma run_cons k keys s s1 :
  (x ← press k s; get_ui_content x) = Ok s1 → run (k :: keys) s = run keys s1.
Proof.
  intros H. cbn [run]. destruct (press k s) as [x|]; [|done].
  cbn [mbind Result_bind] in *. by rewrite H.
Qed.




(** ** Starting up *)



(** ** Saving and starting again *)

Lemma parse_md_exported (M : MarkdownIt) (root : Node) (name : string) :
  tokenizes_exports M →
  forallb (exportable 1) (children root) = true →
  parse_md (String.concat newline (to_markdown root 0)) name
  = Ok (mkNode (basename name) (uncollapse <$> children root) false).
Proof.
  intros Htok Hexp.
  set (hs := children root ≫= outline 1).
  assert (Forall (λ h, 1 ≤ h.1 ∧ h.1 ≤ 6 ∧ plain_text h.2 = true) hs) as Hhs.
  { pose proof (proj1 (List.forallb_forall _ _) Hexp) as Hall. subst hs.
    clear Hexp. induction (children root) as [|x cs IH]; [constructor|].
    rewrite bind_cons. apply Forall_app. split.
    - apply exportable_outline; [lia|]. apply Hall. by left.
    - apply IH. intros y Hy. apply Hall. by right. }
  assert (md_parse (String.concat newline (to_markdown root 0))
          = hs ≫= (λ h, heading_tokens h.1 h.2)) as Htokens.
  { rewrite to_markdown_root_outline. by apply Htok. }
  assert (heading_wf (hs ≫= (λ h, heading_tokens h.1 h.2))) as Hwf.
  { apply heading_wf_heading_tokens. eapply Forall_impl; [exact Hhs|].
    simpl. intros; lia. }
  destruct (attach_all_outline root (basename name)) as [stack Hall].
  rewrite parse_md_attach_all by (by rewrite Htokens).
  rewrite Htokens, headings_heading_tokens.
  - fold hs in Hall |- *. by rewrite Hall.
  - eapply Forall_impl; [exact Hhs|]. simpl. intros; lia.
Qed.

Lemma to_markdown_root_children a b :
  children a = uncollapse <$> children b → to_markdown a 0 = to_markdown b 0.
Proof.
  intros Hab. rewrite <- (to_markdown_uncollapse b).
  rewrite (to_markdown_unfold a), (to_markdown_unfold (uncollapse b)).
  destruct b as [t cs c]. cbn [uncollapse children] in *. by rewrite Hab.
Qed.

(** X16 — What a restart keeps: save, then start again on the file, with
    a tokenizer that reads exported headings as CommonMark does and a tree
    that can be written and read back.  The new session shows the same
    nodes in the same order under a root that carries the file's base
    name again: a renamed root, the collapse flags, the selection and the
    status line are not kept.  Saving again writes the same file. *)
Theorem save_restart (M : MarkdownIt) (s : Session) :
  tokenizes_exports M →
  forallb (exportable 1) (children (root (state s))) = true →
  ∃ s1 s2 s3,
    save s = Ok s1 ∧
    main (filename (state s1)) (file s1) = Ok s2 ∧
    root (state s2)
    = mkNode (basename (filename (state s)))
        (uncollapse <$> children (root (state s))) false ∧
    selected_index (state s2) = 0%Z ∧
    status_msg (state s2) = status_msg (AppState_init (filename (state s))) ∧
    save s2 = Ok s3 ∧
    file s3 = file s1.
Proof.
  intros Htok Hexp.
  assert (∃ s1, save s = Ok s1) as [s1 Hsave] by (by eexists).
  exists s1. rewrite Hsave. unfold save in Hsave. injection Hsave as <-.
  cbn [state file filename set_status_msg]. unfold main.
  cbn [filename AppState_init].
  rewrite (parse_md_exported M _ _ Htok Hexp). cbn [mbind Result_bind].
  eexists _, _. split; [reflexivity|]. split; [reflexivity|].
  cbn [state root set_root selected_index status_msg AppState_init].
  split_and!; try done. unfold save. cbn [state file root set_root].
  by rewrite (to_markdown_root_children _ (root (state s))).
Qed.

(** ** The export determines the outline *)

Lemma heading_line_inj L t L' t' :
  heading_line L t = heading_line L' t' → L = L' ∧ t = t'.
Proof.
  intros Heq. apply (f_equal list_ascii_of_string) in Heq.
  rewrite !chars_heading_line in Heq.
  assert (L = L' ∧ list_ascii_of_string t = list_ascii_of_string t')
    as [-> Ht].
  { revert Heq. generalize (list_ascii_of_string t) (list_ascii_of_string t').
    revert L'. induction L as [|L IH]; intros [|L'] l l'; cbn [replicate app];
      intros Heq; try discriminate Heq.
    - by injection Heq as ->.
    - injection Heq as Heq. by destruct (IH _ _ _ Heq) as [-> ->]. }
  split; [done|]. apply (f_equal string_of_list_ascii) in Ht.
  by rewrite !string_of_list_ascii_of_string in Ht.
Qed.

Lemma same_structure_fmap l1 l2 :
  uncollapse <$> l1 = uncollapse <$> l2 → Forall2 same_structure l1 l2.
Proof.
  revert l2. induction l1 as [|x l1 IH]; intros [|y l2] Heq; try done.
  rewrite !fmap_cons in Heq. injection Heq as Hxy Hl.
  constructor; [exact Hxy|by apply IH].
Qed.

(** X17 — The export determines the outline: [to_markdown] returns the
    same list of lines for two trees exactly when they have the same nodes
    below the root, with the same texts in the same order.  The level and
    the text of a node can always be read off its line, whatever the text;
    only the collapse flags and the root's text are not written. *)
Theorem export_injective (a b : Node) :
  to_markdown a 0 = to_markdown b 0
  ↔ Forall2 same_structure (children a) (children b).
Proof.
  split.
  - rewrite !to_markdown_root_outline. intros Heq.
    assert (children a ≫= outline 1 = children b ≫= outline 1) as Hout.
    { revert Heq. generalize (children a ≫= outline 1) (children b ≫= outline 1).
      induction l as [|[L t] l IH]; intros [|[L' t'] l']; try done.
      rewrite !fmap_cons. cbn [fst snd]. intros [= Hh Hl].
      destruct (heading_line_inj _ _ _ _ Hh) as [-> ->]. f_equal.
      by apply IH. }
    destruct (attach_all_outline a "") as [sa Ha].
    destruct (attach_all_outline b "") as [sb Hb].
    rewrite Hout, Hb in Ha. injection Ha as Hcs _.
    by apply same_structure_fmap.
  - intros Hab%same_structure_children.
    rewrite <- (to_markdown_uncollapse a).
    apply to_markdown_root_children. destruct a as [t cs c].
    cbn [uncollapse children] in *. done.
Qed.

(** ** Importing what was exported from an import *)

Lemma exportable_positions n : ∀ level,
  (∀ p, p ∈ preorder n →
        level + length p ≤ 6 ∧ plain_text (text (deref n p)) = true) →
  exportable level n = true.
Proof.
  induction n as [t cs c IH] using Node_ind'. intros level Hall.
  cbn [exportable text children].
  destruct (Hall []) as [Hl Ht].
  { unfold preorder. rewrite positions_unfold. left. }
  cbn [length] in Hl. unfold deref in Ht. cbn [node_at default id text] in Ht.
  rewrite Ht, bool_decide_eq_true_2 by lia. cbn [andb].
  apply List.forallb_forall. intros x Hx.
  apply list_elem_of_In, list_elem_of_lookup_1 in Hx as [i Hi].
  rewrite Forall_forall in IH. apply IH; [by eapply list_elem_of_lookup_2|].
  intros p Hp.
  destruct (Hall (i :: p)) as [Hl' Ht'].
  { unfold preorder. rewrite positions_unfold. right. cbn [andb children].
    apply elem_of_positions_children. exists i, x. by split_and!. }
  cbn [length] in Hl'. split; [lia|].
  by rewrite (deref_cons _ i p x) in Ht'.
Qed.

(** X18 — Importing again what an import exports: for a document whose
    headings have levels 1 to 6 and plain contents, and a tokenizer that
    reads exported headings as CommonMark does, the tree [parse_md] returns
    is written by [to_markdown] as a document that [parse_md] reads back as
    the very same tree, level jumps of the first document included: after
    one load and save the file no longer changes. *)
Theorem reimport_stable (M : MarkdownIt) (md_text name : string) :
  tokenizes_exports M →
  heading_wf (md_parse md_text) →
  Forall (λ h, h.1 ≤ 6 ∧ plain_text h.2 = true) (headings (md_parse md_text)) →
  ∃ r,
    parse_md md_text name = Ok r ∧
    parse_md (String.concat newline (to_markdown r 0)) name = Ok r.
Proof.
  intros Htok Hwf Hplain. set (hs := headings (md_parse md_text)) in *.
  destruct (import_inv_attach_all hs [] _ (import_inv_init (basename name))
              (headings_levels _ Hwf)) as ([r stack] & Hall & Hinv).
  cbn [app] in Hall, Hinv.
  assert (parse_md md_text name = Ok r) as Hr.
  { rewrite parse_md_attach_all by done. fold hs. by rewrite Hall. }
  exists r. split; [exact Hr|].
  pose proof (import_inv_depth _ _ _ Hinv) as Hdepth.
  destruct Hinv as (Hlen & _ & _ & Htexts & _).
  cbn [fst snd length] in Hlen, Htexts. rewrite length_fmap in Hlen.
  assert (∀ p, p ∈ tail (preorder r) →
               length p ≤ 6 ∧ plain_text (text (deref r p)) = true) as Hnodes.
  { intros p [j Hj]%list_elem_of_lookup_1.
    destruct (preorder_head r) as [refs Hrefs]. rewrite Hrefs in *.
    cbn [tail length] in *.
    destruct (lookup_lt_is_Some_2 hs j) as [[L c] Hh].
    { apply lookup_lt_Some in Hj. lia. }
    rewrite Forall_forall in Hplain.
    destruct (Hplain (L, c)) as [HL Hc]; [by eapply list_elem_of_lookup_2|].
    cbn [fst snd] in HL, Hc. split.
    - apply (Nat.le_trans _ L); [|exact HL].
      apply (Hdepth (S j) p L); [done|]. simpl.
      by rewrite list_lookup_fmap, Hh.
    - apply (f_equal (λ l, l !! j)) in Htexts.
      rewrite !list_lookup_fmap, Hj, Hh in Htexts. cbn in Htexts.
      by injection Htexts as ->. }
  assert (forallb (exportable 1) (children r) = true) as Hexp.
  { apply List.forallb_forall. intros x Hx.
    apply list_elem_of_In, list_elem_of_lookup_1 in Hx as [i Hi].
    apply exportable_positions. intros p Hp.
    destruct (Hnodes (i :: p)) as [Hl Ht].
    { apply elem_of_tail_positions. split; [done|].
      unfold preorder. rewrite positions_unfold. right. cbn [andb].
      apply elem_of_positions_children. exists i, x. by split_and!. }
    cbn [length] in Hl. split; [lia|]. by rewrite (deref_cons _ i p x) in Ht. }
  rewrite (parse_md_exported M r name Htok Hexp). f_equal.
  pose proof (parse_md_expanded _ _ _ Hr) as Hu.
  unfold parse_md in Hr. apply parse_loop_text in Hr.
  cbn [Node_init text] in Hr. rewrite <- Hr.
  destruct r as [t cs c]. cbn [uncollapse text children] in *.
  by injection Hu as -> ->.
Qed.

(** ** Renaming without typing *)

(** X19 — Renaming without typing: in navigation mode, [e] followed by
    [enter] with nothing typed stores the text the input was filled with,
    the node's own: when that text is not empty the tree is unchanged;
    when it is empty the node becomes [Untitled].  The selection stays on
    the node and the session is back in navigation mode. *)
Theorem rename_commit (s : Session) :
  is_editing (state s) = false →
  ∃ st sel s',
    get_selected_node (state s) = Ok (st, sel) ∧
    run [key_e; key_enter] s = Ok s' ∧
    let cur := deref (root (state s)) sel in
    root (state s')
    = update_at
        (set_text (if decide (text cur = "") then "Untitled" else text cur))
        sel (root (state s)) ∧
    (text cur ≠ "" → root (state s') = root (state s)) ∧
    get_selected_node (state s') = Ok (state s', sel) ∧
    is_editing (state s') = false ∧
    focus s' = root_window.
Proof.
  intros Hnav.
  destruct (rename_enters s) as (st & r & i & Hget & Hren & Hroot & Hi & Hidx).
  set (cur := deref (root (state s)) r) in *.
  set (s1 := trigger_edit (text cur) (set_state st s)) in *.
  assert ((x ← press key_e s; get_ui_content x) = Ok s1) as Hstep1.
  { unfold press. rewrite Hnav, Hren. cbn [mbind Result_bind].
    by apply (get_ui_content_at s1 i r). }
  set (new := if decide (text cur = "") then "Untitled" else text cur).
  set (s2 := mkSession
               (set_is_editing false
                  (set_root (update_at (set_text new) r (root (state s1)))
                     (state s1)))
               (edit_input_text s1) root_window (exited s1) (file s1)).
  rewrite get_visible_nodes_visible in Hi.
  destruct (visible_valid _ _ _ Hi) as (m & Hm & _).
  destruct (visible_update_at_lookup _ i r m (set_text new) Hi Hm)
    as (Hi' & _ & _).
  assert ((x ← press key_enter s1; get_ui_content x) = Ok s2) as Hstep2.
  { unfold press. cbn [s1 trigger_edit state is_editing set_is_editing].
    unfold finish_edit.
    rewrite (get_selected_node_at _ i r)
      by (cbn [state root selected_index set_is_editing set_state];
          by rewrite ?get_visible_nodes_visible).
    cbn [mbind Result_bind]. apply (get_ui_content_at _ i r).
    - cbn [state root set_root set_is_editing set_state edit_input_text].
      by rewrite get_visible_nodes_visible.
    - done. }
  exists st, r, s2. split; [exact Hget|]. split.
  { by rewrite (run_cons _ _ _ _ Hstep1), (run_cons _ _ _ _ Hstep2). }
  cbn [s2 s1 state root set_root set_is_editing trigger_edit set_state
         is_editing focus].
  rewrite Hroot in *. split_and!; try done.
  - intros Hne. unfold new. destruct (decide (text cur = "")); [done|].
    rewrite (update_at_ext_at _ id _ _ m Hm); [by apply update_at_id|].
    unfold cur. rewrite (deref_node_at _ _ _ Hm). by destruct m.
  - apply (get_selected_node_at _ i r); [|done].
    cbn [root]. by rewrite get_visible_nodes_visible.
Qed.

(** * Instances of the further properties *)

(** Cursor keys on [sample_tree] from its fourth row: down, down, up. *)
Lemma cursor_keys_witness :
  is_editing (state (sample_session 3)) = false ∧
  Forall is_move [key_down; key_down; key_up] ∧
  let len := length (get_visible_nodes (root (state (sample_session 3)))) in
  ∃ s',
    run [key_down; key_down; key_up] (sample_session 3) = Ok s' ∧
    root (state s') = root (state (sample_session 3)) ∧
    is_editing (state s') = false ∧
    selected_index (state s')
    = foldl (step_index len) (selected_index (state (sample_session 3)))
        [key_down; key_down; key_up] ∧
    ([key_down; key_down; key_up] ≠ [] →
     (0 ≤ selected_index (state s') ≤ Z.of_nat len - 1)%Z).
Proof.
  assert (Forall is_move [key_down; key_down; key_up]) as Hmoves.
  { constructor; [by right|]. constructor; [by right|].
    constructor; [by left|]. constructor. }
  split; [reflexivity|]. split; [exact Hmoves|].
  apply (cursor_keys [key_down; key_down; key_up] (sample_session 3));
    [reflexivity | exact Hmoves].
Defined.

(** Import of [sample_doc], read with the tokenizer model, then export. *)
Lemma import_then_export_witness :
  heading_wf (@md_parse markdown_it sample_doc) ∧
  let hs := headings (@md_parse markdown_it sample_doc) in
  ∃ r,
    @parse_md markdown_it sample_doc "mindmap.md" = Ok r ∧
    length (to_markdown r 0) = length hs ∧
    ∀ j L c, hs !! j = Some (L, c) →
      ∃ d, to_markdown r 0 !! j = Some (heading_line d c) ∧ 1 ≤ d ∧ d ≤ L.
Proof.
  split.
  - apply heading_wfb_correct. reflexivity.
  - apply (@import_then_export markdown_it sample_doc "mindmap.md").
    apply heading_wfb_correct. reflexivity.
Defined.

(** [A] of [sample_tree] renamed to the empty text. *)
Lemma texts_never_empty_witness :
  Forall (λ c, named c = true) (children (root (state (sample_session 1)))) ∧
  ∃ s',
    run [key_e; typed ""; key_enter] (sample_session 1) = Ok s' ∧
    Forall (λ c, named c = true) (children (root (state s'))) ∧
    Forall (λ h, h.2 ≠ "") (children (root (state s')) ≫= outline 1).
Proof.
  assert (Forall (λ c, named c = true)
            (children (root (state (sample_session 1))))) as Hn.
  { constructor; [reflexivity|]. constructor; [reflexivity|]. constructor. }
  split; [exact Hn|].
  apply (texts_never_empty [key_e; typed ""; key_enter] (sample_session 1)).
  exact Hn.
Defined.

(** [d d] on [A] of [sample_tree]. *)
Lemma delete_node_cuts_witness :
  is_editing (state (sample_session 1)) = false ∧
  get_visible_nodes (root (state (sample_session 1))) !! 1 = Some [0] ∧
  selected_index (state (sample_session 1)) = Z.of_nat 1 ∧
  parent [0] = Some [] ∧
  let root0 := root (state (sample_session 1)) in
  let gone := deref root0 [0] in
  ∃ s',
    run [key_d_d] (sample_session 1) = Ok s' ∧
    root (state s')
    = update_at (λ p, set_children (delete (List.last [0] 0) (children p)) p)
        [] root0 ∧
    (∃ pre post,
       to_markdown root0 0 = pre ++ to_markdown gone (length [0]) ++ post ∧
       to_markdown (root (state s')) 0 = pre ++ post) ∧
    length (get_visible_nodes (root (state s')))
    + length (get_visible_nodes gone)
    = length (get_visible_nodes root0) ∧
    selected_index (state s')
    = Z.min (Z.of_nat 1)
        (Z.of_nat (length (get_visible_nodes (root (state s')))) - 1) ∧
    (∀ next, node_at root0 ([] ++ [List.last [0] 0 + 1]) = Some next →
       node_at (root (state s')) [0] = Some next ∧
       get_selected_node (state s') = Ok (state s', [0])).
Proof.
  split; [reflexivity|]. split; [reflexivity|]. split; [reflexivity|].
  split; [reflexivity|].
  apply (delete_node_cuts (sample_session 1) 1 [0] []); reflexivity.
Defined.

(** [enter] on [A] of [sample_tree]. *)
Lemma add_sibling_placement_witness :
  get_visible_nodes (root (state (sample_session 1))) !! 1 = Some [0] ∧
  selected_index (state (sample_session 1)) = Z.of_nat 1 ∧
  parent [0] = Some [] ∧
  let root0 := root (state (sample_session 1)) in
  let cur := deref root0 [0] in
  ∃ s',
    add_sibling_and_edit (sample_session 1) = Ok s' ∧
    node_at (root (state s')) [0] = Some cur ∧
    get_visible_nodes (root (state s')) !! 1 = Some [0] ∧
    selected_index (state s')
    = Z.of_nat (1 + length (get_visible_nodes cur)) ∧
    length (get_visible_nodes (root (state s')))
    = S (length (get_visible_nodes root0)) ∧
    ∃ pre post,
      to_markdown root0 0 = pre ++ to_markdown cur (length [0]) ++ post ∧
      to_markdown (root (state s')) 0
      = pre ++ to_markdown cur (length [0])
        ++ heading_line (length [0]) "New Sibling" :: post.
Proof.
  split; [reflexivity|]. split; [reflexivity|]. split; [reflexivity|].
  apply (add_sibling_placement (sample_session 1) 1 [0] []); reflexivity.
Defined.

(** [tab] on the collapsed [C] of [sample_tree]. *)
Lemma add_child_placement_witness :
  get_visible_nodes (root (state (sample_session 3))) !! 3 = Some [0; 1] ∧
  selected_index (state (sample_session 3)) = Z.of_nat 3 ∧
  let root0 := root (state (sample_session 3)) in
  let cur := deref root0 [0; 1] in
  ∃ s',
    add_child_and_edit (sample_session 3) = Ok s' ∧
    get_visible_nodes (root (state s')) !! 3 = Some [0; 1] ∧
    selected_index (state s')
    = Z.of_nat (3 + length (get_visible_nodes (set_collapsed false cur))) ∧
    ∃ pre post,
      to_markdown root0 0 = pre ++ to_markdown cur (length [0; 1]) ++ post ∧
      to_markdown (root (state s')) 0
      = pre ++ to_markdown cur (length [0; 1])
        ++ heading_line (length [0; 1] + 1) "New Node" :: post.
Proof.
  split; [reflexivity|]. split; [reflexivity|].
  apply (add_child_placement (sample_session 3) 3 [0; 1]); reflexivity.
Defined.


(** [sample_tree] saved, and the program started again on the file, read
    with the tokenizer model. *)
Lemma save_restart_witness :
  tokenizes_exports markdown_it ∧
  forallb (exportable 1) (children (root (state (sample_session 0)))) = true ∧
  ∃ s1 s2 s3,
    save (sample_session 0) = Ok s1 ∧
    @main markdown_it (filename (state s1)) (file s1) = Ok s2 ∧
    root (state s2)
    = mkNode (basename (filename (state (sample_session 0))))
        (uncollapse <$> children (root (state (sample_session 0)))) false ∧
    selected_index (state s2) = 0%Z ∧
    status_msg (state s2)
    = status_msg (AppState_init (filename (state (sample_session 0)))) ∧
    save s2 = Ok s3 ∧
    file s3 = file s1.
Proof.
  split; [exact markdown_it_tokenizes_exports|]. split; [reflexivity|].
  apply (save_restart markdown_it (sample_session 0)).
  - exact markdown_it_tokenizes_exports.
  - reflexivity.
Defined.

(** [jump_doc], read with the tokenizer model: the level-3 heading comes
    back as a level-2 heading, and stays one. *)
Lemma reimport_stable_witness :
  tokenizes_exports markdown_it ∧
  heading_wf (@md_parse markdown_it jump_doc) ∧
  Forall (λ h, h.1 ≤ 6 ∧ plain_text h.2 = true)
    (headings (@md_parse markdown_it jump_doc)) ∧
  ∃ r,
    @parse_md markdown_it jump_doc "mindmap.md" = Ok r ∧
    @parse_md markdown_it (String.concat newline (to_markdown r 0)) "mindmap.md"
    = Ok r.
Proof.
  assert (Forall (λ h, h.1 ≤ 6 ∧ plain_text h.2 = true)
            (headings (@md_parse markdown_it jump_doc))) as Hplain.
  { assert (headings (@md_parse markdown_it jump_doc) = [(1, "A"); (3, "B")])
      as -> by reflexivity.
    constructor; [split; [cbn [fst]; lia|reflexivity]|].
    constructor; [split; [cbn [fst]; lia|reflexivity]|]. constructor. }
  split; [exact markdown_it_tokenizes_exports|].
  split; [apply heading_wfb_correct; reflexivity|].
  split; [exact Hplain|].
  apply (reimport_stable markdown_it jump_doc "mindmap.md").
  - exact markdown_it_tokenizes_exports.
  - apply heading_wfb_correct. reflexivity.
  - exact Hplain.
Defined.

(** [A] of [sample_tree] renamed without typing. *)
Lemma rename_commit_witness :
  is_editing (state (sample_session 1)) = false ∧
  ∃ st sel s',
    get_selected_node (state (sample_session 1)) = Ok (st, sel) ∧
    run [key_e; key_enter] (sample_session 1) = Ok s' ∧
    let cur := deref (root (state (sample_session 1))) sel in
    root (state s')
    = update_at
        (set_text (if decide (text cur = "") then "Untitled" else text cur))
        sel (root (state (sample_session 1))) ∧
    (text cur ≠ "" → root (state s') = root (state (sample_session 1))) ∧
    get_selected_node (state s') = Ok (state s', sel) ∧
    is_editing (state s') = false ∧
    focus s' = root_window.
Proof.
  split; [reflexivity|]. apply (rename_commit (sample_session 1)). reflexivity.
Defined.
